(** * Tic-Tac-Toe: the game engine of [tic_tac_toe.py]

    A shallow embedding of the board, the rules ([check_winner_on_board],
    [is_board_full], [is_draw]), the alpha-beta search ([minimax],
    [get_best_move]) and the session methods of class [TicTacToe]
    ([start_game], [handle_click], [make_move], [computer_move],
    [handle_timeout], the turn timer), followed by the properties of the
    engine.

    Python mutates one shared [self.board] object in place; here every
    function that writes to the board takes it and returns it (explicit
    state passing), so that "mutate, recurse, undo" is visible in the model.
    Widgets, labels, dialogs and the score file are presentation and are not
    modelled, apart from the enabled/disabled state of the nine board
    buttons, the turn timer and the pending [root.after(500, computer_move)]
    callbacks, which decide which handlers can run. *)

From Stdlib Require Import ZArith List Bool Lia Orders OrdersTac Sorted.
Import ListNotations.
Local Open Scope Z_scope.

(** ** Data model *)

(** The two symbols ['X'] and ['O']. *)
Inductive player : Type := X | O.

(** A cell of the board: [None] (Python [None]) or a symbol. *)
Definition cell : Type := option player.

(** The indices produced by [range(3)]. *)
Inductive idx : Type := i0 | i1 | i2.

Definition range3 : list idx := [i0; i1; i2].

Definition nat_of_idx (i : idx) : nat :=
  match i with i0 => 0 | i1 => 1 | i2 => 2 end.

(** A list of exactly three elements.  [start_game] builds the board as
    [[None for _ in range(3)] for _ in range(3)] and every later access is
    an in-place read or write at indices drawn from [range(3)], so the shape
    never changes. *)
Record triple (A : Type) : Type := Triple { t0 : A; t1 : A; t2 : A }.
Arguments Triple {A} _ _ _.
Arguments t0 {A} _.
Arguments t1 {A} _.
Arguments t2 {A} _.

Definition nth3 {A : Type} (t : triple A) (i : idx) : A :=
  match i with i0 => t0 t | i1 => t1 t | i2 => t2 t end.

Definition upd3 {A : Type} (t : triple A) (i : idx) (a : A) : triple A :=
  match i with
  | i0 => Triple a (t1 t) (t2 t)
  | i1 => Triple (t0 t) a (t2 t)
  | i2 => Triple (t0 t) (t1 t) a
  end.

Definition grid (A : Type) : Type := triple (triple A).

Definition Board : Type := grid cell.

(** [board[i][j]] *)
Definition get {A : Type} (b : grid A) (i j : idx) : A := nth3 (nth3 b i) j.

(** [board[i][j] = c] *)
Definition set {A : Type} (b : grid A) (i j : idx) (c : A) : grid A :=
  upd3 b i (upd3 (nth3 b i) j c).

Definition full_grid {A : Type} (a : A) : grid A :=
  Triple (Triple a a a) (Triple a a a) (Triple a a a).

(** [[[None for _ in range(3)] for _ in range(3)]] *)
Definition empty_board : Board := full_grid None.

(** A move [(row, col)]. *)
Definition move : Type := (idx * idx)%type.

(** The cells in row-major scan order: [for i in range(3): for j in range(3)]. *)
Definition cells : list move := list_prod range3 range3.

Definition player_eqb (p q : player) : bool :=
  match p, q with X, X | O, O => true | _, _ => false end.

(** [a == b] on cells. *)
Definition cell_eqb (a b : cell) : bool :=
  match a, b with
  | None, None => true
  | Some p, Some q => player_eqb p q
  | _, _ => false
  end.

Definition is_none (c : cell) : bool :=
  match c with None => true | Some _ => false end.

(** ['O' if p == 'X' else 'X'] *)
Definition other (p : player) : player :=
  match p with X => O | O => X end.

(** ** Rules *)

(** [a == b == c and a is not None] *)
Definition three_in_line (a b c : cell) : bool :=
  cell_eqb a b && cell_eqb b c && negb (is_none a).

(** [check_winner_on_board]: rows 0..2, then columns 0..2, then the two
    diagonals; the first completed line found decides the result. *)
Definition check_winner_on_board (board : Board) : option player :=
  match find (fun i => three_in_line (get board i i0) (get board i i1) (get board i i2)) range3 with
  | Some i => get board i i0
  | None =>
    match find (fun i => three_in_line (get board i0 i) (get board i1 i) (get board i2 i)) range3 with
    | Some i => get board i0 i
    | None =>
      if three_in_line (get board i0 i0) (get board i1 i1) (get board i2 i2)
      then get board i0 i0
      else if three_in_line (get board i0 i2) (get board i1 i1) (get board i2 i0)
      then get board i0 i2
      else None
    end
  end.

(** [is_board_full]: [all(board[i][j] is not None for i ... for j ...)] *)
Definition is_board_full (board : Board) : bool :=
  forallb (fun i => forallb (fun j => negb (is_none (get board i j))) range3) range3.

(** [is_draw] on a present board: full and [not self.check_winner()]. *)
Definition is_draw (board : Board) : bool :=
  is_board_full board &&
  match check_winner_on_board board with Some _ => false | None => true end.

(** The empty cells in row-major order, the list [empty] of [computer_move]:
    [[(i, j) for i in range(3) for j in range(3) if self.board[i][j] is None]];
    these are the legal moves. *)
Definition legal_moves (b : Board) : list move :=
  filter (fun m => is_none (get b (fst m) (snd m))) cells.

Definition count_empty (b : Board) : nat := length (legal_moves b).

(** The outcome of a position, as [make_move] classifies it after placing a
    mark: [if winner: ... elif self.is_draw(): ... else: ...]. *)
Inductive Outcome : Type :=
| InProgress
| Win (s : player)
| Draw.

Definition evaluate (board : Board) : Outcome :=
  match check_winner_on_board board with
  | Some w => Win w
  | None => if is_draw board then Draw else InProgress
  end.

(** ** Scores *)

(** The numbers the search handles: [float('-inf')], the integers
    [1], [-1], [0], and [float('inf')]. *)
Inductive score : Type :=
| NegInf
| Fin (z : Z)
| PosInf.

(** [a < b] *)
Definition score_ltb (a b : score) : bool :=
  match a, b with
  | NegInf, NegInf => false
  | NegInf, _ => true
  | Fin _, NegInf => false
  | Fin x, Fin y => x <? y
  | Fin _, PosInf => true
  | PosInf, _ => false
  end.

(** [a <= b] *)
Definition score_leb (a b : score) : bool := negb (score_ltb b a).

(** Python's [max(a, b)]: [b] when [b > a], otherwise [a]. *)
Definition py_max (a b : score) : score := if score_ltb a b then b else a.

(** Python's [min(a, b)]: [b] when [b < a], otherwise [a]. *)
Definition py_min (a b : score) : score := if score_ltb b a then b else a.

(** ** Loops *)

(** [None] stands for a search that ran out of fuel. *)
Definition obind {A B : Type} (o : option A) (k : A -> option B) : option B :=
  match o with Some a => k a | None => None end.

Notation "x <- e ;; k" := (obind e (fun x => k))
  (at level 61, e at next level, right associativity).
Notation "' p <- e ;; k" := (obind e (fun x => match x with p => k end))
  (at level 61, p pattern, e at next level, right associativity).

(** How the body of a loop ends: fall through to the next iteration, or
    [break]. *)
Inductive flow : Type := Next | Break.

(** A [for] loop whose body never breaks. *)
Fixpoint for_each {A St : Type} (l : list A) (body : A -> St -> option St) (s : St)
  : option St :=
  match l with
  | [] => Some s
  | a :: l' => s' <- body a s ;; for_each l' body s'
  end.

(** A [for] loop whose body may [break]. *)
Fixpoint for_break {A St : Type} (l : list A) (body : A -> St -> option (St * flow))
  (s : St) : option St :=
  match l with
  | [] => Some s
  | a :: l' =>
    '(s', f) <- body a s ;;
    match f with
    | Break => Some s'
    | Next => for_break l' body s'
    end
  end.

(** ** Search *)

(** The variables of one [minimax] activation that its loops update: the
    shared board, the running [max_eval] / [min_eval], and [alpha], [beta]. *)
Record frame : Type := Frame {
  f_board : Board;
  f_eval : score;
  f_alpha : score;
  f_beta : score
}.

Definition search : Type := Board -> Z -> bool -> score -> score -> option (score * Board).

(** Body of the inner loop of the maximizing branch, for cell [(i, j)];
    [rec] is the recursive call. *)
Definition max_body (rec : search) (depth : Z) (i j : idx) (st : frame)
  : option (frame * flow) :=
  match get (f_board st) i j with
  | None =>
    let board := set (f_board st) i j (Some O) in
    '(eval_score, board) <- rec board (depth + 1) false (f_alpha st) (f_beta st) ;;
    let board := set board i j None in
    let max_eval := py_max (f_eval st) eval_score in
    let alpha := py_max (f_alpha st) eval_score in
    Some (Frame board max_eval alpha (f_beta st),
          if score_leb (f_beta st) alpha then Break else Next)
  | Some _ => Some (st, Next)
  end.

(** Body of the inner loop of the minimizing branch. *)
Definition min_body (rec : search) (depth : Z) (i j : idx) (st : frame)
  : option (frame * flow) :=
  match get (f_board st) i j with
  | None =>
    let board := set (f_board st) i j (Some X) in
    '(eval_score, board) <- rec board (depth + 1) true (f_alpha st) (f_beta st) ;;
    let board := set board i j None in
    let min_eval := py_min (f_eval st) eval_score in
    let beta := py_min (f_beta st) eval_score in
    Some (Frame board min_eval (f_alpha st) beta,
          if score_leb beta (f_alpha st) then Break else Next)
  | Some _ => Some (st, Next)
  end.

(** [minimax(board, depth, is_maximizing, alpha, beta)].  The result is the
    returned score together with the board as the call leaves it.  [break]
    leaves the inner [for j] loop only: the outer [for i] loop goes on with
    the next row. *)
Fixpoint minimax (fuel : nat) (board : Board) (depth : Z) (is_maximizing : bool)
  (alpha beta : score) : option (score * Board) :=
  match fuel with
  | 0%nat => None
  | S fuel' =>
    match check_winner_on_board board with
    | Some O => Some (Fin 1, board)
    | Some X => Some (Fin (-1), board)
    | None =>
      if is_board_full board then Some (Fin 0, board)
      else if is_maximizing then
        st <- for_each range3
                (fun i => for_break range3 (max_body (minimax fuel') depth i))
                (Frame board NegInf alpha beta) ;;
        Some (f_eval st, f_board st)
      else
        st <- for_each range3
                (fun i => for_break range3 (min_body (minimax fuel') depth i))
                (Frame board PosInf alpha beta) ;;
        Some (f_eval st, f_board st)
    end
  end.

(** The variables of [get_best_move] that its loops update. *)
Record best : Type := Best {
  b_board : Board;
  best_score : score;
  best_move : move
}.

(** Body of the inner loop of [get_best_move], for cell [(i, j)]. *)
Definition best_body (fuel : nat) (i j : idx) (st : best) : option best :=
  match get (b_board st) i j with
  | None =>
    let board := set (b_board st) i j (Some O) in
    '(score, board) <- minimax fuel board 0 false NegInf PosInf ;;
    let board := set board i j None in
    if score_ltb (best_score st) score
    then Some (Best board score (i, j))
    else Some (Best board (best_score st) (best_move st))
  | Some _ => Some st
  end.

(** ** The plain minimax recursion

    The unpruned recursion the search is compared with, on board snapshots:
    a decided position has its terminal score (a win of O is [1], a win of X
    is [-1], a draw is [0]); otherwise the value is the maximum (O to move)
    or the minimum (X to move) of the values of the positions after each
    legal move. *)

Definition apply_move (b : Board) (m : move) (p : player) : Board :=
  set b (fst m) (snd m) (Some p).

Fixpoint plain_minimax_fuel (fuel : nat) (b : Board) (is_maximizing : bool) : score :=
  match fuel with
  | 0%nat => Fin 0
  | S fuel' =>
    match evaluate b with
    | Win O => Fin 1
    | Win X => Fin (-1)
    | Draw => Fin 0
    | InProgress =>
      if is_maximizing
      then fold_left py_max
             (map (fun m => plain_minimax_fuel fuel' (apply_move b m O) false) (legal_moves b))
             NegInf
      else fold_left py_min
             (map (fun m => plain_minimax_fuel fuel' (apply_move b m X) true) (legal_moves b))
             PosInf
    end
  end.

(** Every move fills one cell, so one unit of fuel per empty cell, plus one
    for the final position, reaches every leaf. *)
Definition plain_minimax (b : Board) (is_maximizing : bool) : score :=
  plain_minimax_fuel (S (count_empty b)) b is_maximizing.

Arguments plain_minimax : simpl never.
Arguments legal_moves : simpl never.
Arguments count_empty : simpl never.

(** Row-major position of a cell: [3 * row + col]. *)
Definition scan_index (m : move) : nat := 3 * nat_of_idx (fst m) + nat_of_idx (snd m).

(** ** Session *)

(** [self.mode]: ['pvp'] or ['pve']. *)
Inductive game_mode : Type := PvP | PvE.

(** [self.ai_difficulty]: ['easy'], ['medium'], ['hard']. *)
Inductive difficulty : Type := Easy | Medium | Hard.

(** The attributes of a [TicTacToe] object that the game logic reads or
    writes.  [buttons] keeps, for each board button, whether it is enabled
    (['normal']) or ['disabled']; [timer_id] tells whether a [countdown]
    callback is scheduled; [ai_pending] counts the scheduled
    [root.after(500, self.computer_move)] callbacks not yet run. *)
Record session : Type := Session {
  mode : option game_mode;
  ai_difficulty : difficulty;
  current_player : option player;
  board : option Board;
  buttons : option (grid bool);
  turn_time : Z;
  timer_id : bool;
  ai_pending : nat;
  game_count : Z
}.

Definition set_mode (s : session) (m : option game_mode) : session :=
  Session m (ai_difficulty s) (current_player s) (board s) (buttons s)
          (turn_time s) (timer_id s) (ai_pending s) (game_count s).

Definition set_ai_difficulty (s : session) (d : difficulty) : session :=
  Session (mode s) d (current_player s) (board s) (buttons s)
          (turn_time s) (timer_id s) (ai_pending s) (game_count s).

Definition set_current_player (s : session) (p : option player) : session :=
  Session (mode s) (ai_difficulty s) p (board s) (buttons s)
          (turn_time s) (timer_id s) (ai_pending s) (game_count s).

Definition set_board (s : session) (b : option Board) : session :=
  Session (mode s) (ai_difficulty s) (current_player s) b (buttons s)
          (turn_time s) (timer_id s) (ai_pending s) (game_count s).

Definition set_buttons (s : session) (bs : option (grid bool)) : session :=
  Session (mode s) (ai_difficulty s) (current_player s) (board s) bs
          (turn_time s) (timer_id s) (ai_pending s) (game_count s).

Definition set_turn_time (s : session) (t : Z) : session :=
  Session (mode s) (ai_difficulty s) (current_player s) (board s) (buttons s)
          t (timer_id s) (ai_pending s) (game_count s).

Definition set_timer_id (s : session) (t : bool) : session :=
  Session (mode s) (ai_difficulty s) (current_player s) (board s) (buttons s)
          (turn_time s) t (ai_pending s) (game_count s).

Definition set_ai_pending (s : session) (n : nat) : session :=
  Session (mode s) (ai_difficulty s) (current_player s) (board s) (buttons s)
          (turn_time s) (timer_id s) n (game_count s).

(** The state [__init__] leaves. *)
Definition init_session : session :=
  Session None Hard None None None 30 false 0 0.

(** [self.mode == 'pve' and self.current_player == 'O'] *)
Definition computer_to_move (s : session) : bool :=
  match mode s, current_player s with
  | Some PvE, Some O => true
  | _, _ => false
  end.

(** [self.root.after(500, self.computer_move)] *)
Definition schedule_computer_move (s : session) : session :=
  set_ai_pending s (S (ai_pending s)).

Definition stop_timer (s : session) : session := set_timer_id s false.

Definition start_timer (s : session) : session :=
  set_timer_id (set_turn_time (stop_timer s) 30) true.

Definition disable_all_buttons (s : session) : session :=
  match buttons s with
  | None => s
  | Some _ => set_buttons s (Some (full_grid false))
  end.

(** [clear_window]: stops the timer and destroys every widget; a destroyed
    board button can no longer be clicked. *)
Definition clear_window (s : session) : session :=
  let s := stop_timer s in
  match buttons s with
  | None => s
  | Some _ => set_buttons s (Some (full_grid false))
  end.

(** [get_best_move]: the move found and the session as the call leaves it. *)
Definition get_best_move (fuel : nat) (s : session) : option (move * session) :=
  match board s with
  | None => Some ((i0, i0), s)
  | Some b =>
    st <- for_each range3 (fun i => for_each range3 (best_body fuel i))
            (Best b NegInf (i0, i0)) ;;
    Some (best_move st, set_board s (Some (b_board st)))
  end.

(** [start_game(mode)]: the attributes are reset, the window is cleared, the
    nine board buttons are created enabled, and the timer is started. *)
Definition start_game (m : game_mode) (s : session) : session :=
  let s := set_mode s (Some m) in
  let s := set_board s (Some empty_board) in
  let s :=
    match m with
    | PvP =>
      if game_count s mod 2 =? 0
      then set_current_player s (Some X)
      else set_current_player s (Some O)
    | PvE => set_current_player s (Some X)
    end in
  let s := clear_window s in
  let s := set_buttons s (Some (full_grid true)) in
  let s := start_timer s in
  if computer_to_move s then schedule_computer_move s else s.

(** [start_game_with_ai(difficulty)] *)
Definition start_game_with_ai (d : difficulty) (s : session) : session :=
  start_game PvE (set_ai_difficulty s d).

(** [reset_game] *)
Definition reset_game (s : session) : session :=
  match mode s with
  | Some PvE => start_game_with_ai (ai_difficulty s) s
  | Some PvP => start_game PvP s
  | None => s
  end.

(** [make_move(row, col)] *)
Definition make_move (row col : idx) (s : session) : session :=
  match board s, buttons s, current_player s with
  | Some b, Some bs, Some p =>
    let b := set b row col (Some p) in
    let s := set_board s (Some b) in
    let s := set_buttons s (Some (set bs row col false)) in
    match check_winner_on_board b with
    | Some _ => stop_timer (disable_all_buttons s)
    | None =>
      if is_draw b then stop_timer (disable_all_buttons s)
      else start_timer (set_current_player s (Some (other p)))
    end
  | _, _, _ => s
  end.

(** What a call hands back to its caller: every handler of the class ends
    with a plain [return], so the only value a caller ever sees is [None]. *)
Inductive returned : Type := ReturnsNone.

(** [handle_click(row, col)] *)
Definition handle_click (row col : idx) (s : session) : session * returned :=
  match board s, buttons s with
  | Some b, Some _ =>
    match get b row col with
    | Some _ => (s, ReturnsNone)
    | None =>
      if computer_to_move s then (s, ReturnsNone)
      else
        let s := make_move row col s in
        let s := start_timer s in
        let s := if computer_to_move s then schedule_computer_move s else s in
        (s, ReturnsNone)
    end
  | _, _ => (s, ReturnsNone)
  end.

(** [handle_timeout] *)
Definition handle_timeout (s : session) : session :=
  match board s, current_player s with
  | Some _, Some p =>
    if computer_to_move s then s
    else
      let s := set_current_player s (Some (other p)) in
      let s := start_timer s in
      if computer_to_move s then schedule_computer_move s else s
  | _, _ => s
  end.

(** [countdown], run by the timer callback, which is thereby consumed. *)
Definition countdown (s : session) : session :=
  let s := set_timer_id s false in
  let s := set_turn_time s (turn_time s - 1) in
  if turn_time s <=? 0 then handle_timeout s
  else set_timer_id s true.

(** The random draws one call of [computer_move] may consume:
    [random.random() < 0.7] and the position [random.choice] picks. *)
Record draws : Type := Draws {
  smart : bool;
  pick : nat
}.

(** [random.choice(empty)] on a non-empty list. *)
Definition choice (r : draws) (empty : list move) : move :=
  nth (pick r mod length empty) empty (i0, i0).

(** [computer_move] *)
Definition computer_move (fuel : nat) (r : draws) (s : session) : option session :=
  match board s with
  | None => Some s
  | Some b =>
    let empty := legal_moves b in
    match empty with
    | [] => Some s
    | _ :: _ =>
      '(m, s) <-
        match ai_difficulty s with
        | Easy => Some (choice r empty, s)
        | Medium =>
          if smart r then get_best_move fuel s
          else Some (choice r empty, s)
        | Hard => get_best_move fuel s
        end ;;
      let s := make_move (fst m) (snd m) s in
      Some (start_timer s)
    end
  end.

(** [end_game_draw]: a draw request was accepted. *)
Definition end_game_draw (s : session) : session :=
  stop_timer (disable_all_buttons s).

(** [create_mode_selection]: back to the menu (the menu itself is not
    modelled). *)
Definition create_mode_selection (s : session) : session := clear_window s.


(** ** Vocabulary of the statements *)

(** [a < b] and [a <= b] on scores, as propositions. *)
Definition score_lt (a b : score) : Prop := score_ltb a b = true.
Definition score_le (a b : score) : Prop := score_ltb b a = false.

Definition is_fin (v : score) : Prop := exists z, v = Fin z.

(** The order on scores is the lexicographic order on (rank, value): this
    turns statements about scores into linear integer arithmetic. *)
Definition rk (s : score) : Z :=
  match s with NegInf => 0 | Fin _ => 1 | PosInf => 2 end.

Definition vl (s : score) : Z :=
  match s with Fin z => z | _ => 0 end.

(** The scores with their order, in the form the [order] tactic asks for. *)
Module ScoreOrder <: EqLtLe.
Definition t : Type := score.
Definition eq : t -> t -> Prop := @Logic.eq score.
Definition lt : t -> t -> Prop := score_lt.
Definition le : t -> t -> Prop := score_le.
End ScoreOrder.

(** What a search with window [(alpha, beta)] promises about its result [r]
    when the true value is [v]: exact inside the window, and on the same
    side of the window outside it. *)
Definition bounded (alpha beta v r : score) : Prop :=
  (score_le v alpha -> score_le r alpha) /\
  (score_lt alpha v -> score_lt v beta -> r = v) /\
  (score_le beta v -> score_le beta r).

(** A search procedure behaves on board [b]: whatever the window, it returns
    and leaves [b] as it found it; with a proper window its result is
    [bounded] by the plain minimax value. *)
Definition search_ok (rec : search) (b : Board) : Prop :=
  forall depth is_maximizing alpha beta,
    exists r,
      rec b depth is_maximizing alpha beta = Some (r, b) /\
      (score_lt alpha beta -> bounded alpha beta (plain_minimax b is_maximizing) r).

(** One step of the plain recursion over the scan: cell [c] contributes the
    value of the position after the move when it is empty. *)
Definition max_step (b : Board) (m : score) (c : move) : score :=
  if is_none (get b (fst c) (snd c))
  then py_max m (plain_minimax (apply_move b c O) false)
  else m.

Definition min_step (b : Board) (m : score) (c : move) : score :=
  if is_none (get b (fst c) (snd c))
  then py_min m (plain_minimax (apply_move b c X) true)
  else m.

(** Loop invariant of the maximizing branch: [st] is the frame after some
    cells, [m] the plain running maximum over the same cells.  Either no
    cutoff has happened and [alpha] tracks the plain maximum, or a cutoff
    has happened and both are at least [beta]. *)
Definition max_inv (b : Board) (alpha beta : score) (st : frame) (m : score) : Prop :=
  f_board st = b /\ f_beta st = beta /\
  f_alpha st = py_max alpha (f_eval st) /\
  (score_lt alpha beta ->
   (score_lt (f_alpha st) beta /\ f_alpha st = py_max alpha m) \/
   (score_le beta (f_alpha st) /\ score_le beta m)).

(** Loop invariant of the minimizing branch. *)
Definition min_inv (b : Board) (alpha beta : score) (st : frame) (m : score) : Prop :=
  f_board st = b /\ f_alpha st = alpha /\
  f_beta st = py_min beta (f_eval st) /\
  (score_lt alpha beta ->
   (score_lt alpha (f_beta st) /\ f_beta st = py_min beta m) \/
   (score_le (f_beta st) alpha /\ score_le m alpha)).

(** The value of a move of O: the plain minimax value of the position after
    it, with X to move. *)
Definition move_value (b : Board) (c : move) : score :=
  plain_minimax (apply_move b c O) false.

(** One step of the scan of [get_best_move], with the plain value in place
    of the search: an empty cell whose value is strictly greater than the
    best so far becomes the best move. *)
Definition best_step (acc : best) (c : move) : best :=
  if is_none (get (b_board acc) (fst c) (snd c))
  then
    if score_ltb (best_score acc) (move_value (b_board acc) c)
    then Best (b_board acc) (move_value (b_board acc) c) c
    else acc
  else acc.

(** The move [get_best_move] settles on, on board [b]. *)
Definition chosen_move (b : Board) : move :=
  best_move (fold_left best_step cells (Best b NegInf (i0, i0))).

Arguments move_value : simpl never.

(** ** Sample positions *)

(** X at (0,0) and (0,1), every other cell empty. *)
Definition top_row_threat : Board :=
  Triple (Triple (Some X) (Some X) None)
         (Triple None None None)
         (Triple None None None).

(** A player-versus-computer session on that board, O to move. *)
Definition threat_session : session :=
  Session (Some PvE) Hard (Some O) (Some top_row_threat)
          (Some (Triple (Triple false false true)
                        (Triple true true true)
                        (Triple true true true)))
          30 true 1 0.

(** ** Lines *)

(** A line: three cells. *)
Definition line : Type := (move * move * move)%type.

Definition rows : list line :=
  map (fun i => ((i, i0), (i, i1), (i, i2))) range3.

Definition columns : list line :=
  map (fun i => ((i0, i), (i1, i), (i2, i))) range3.

Definition diagonals : list line :=
  [((i0, i0), (i1, i1), (i2, i2)); ((i0, i2), (i1, i1), (i2, i0))].

(** The 3 rows, the 3 columns and the 2 diagonals. *)
Definition lines : list line := rows ++ columns ++ diagonals.

Definition cell_at (b : Board) (m : move) : cell := get b (fst m) (snd m).

(** Line [l] holds three symbols [s]. *)
Definition holds (b : Board) (l : line) (s : player) : Prop :=
  let '(p, q, r) := l in
  cell_at b p = Some s /\ cell_at b q = Some s /\ cell_at b r = Some s.

(** Side [s] has a completed line. *)
Definition has_line (b : Board) (s : player) : Prop :=
  exists l, In l lines /\ holds b l s.

(** Line [l] holds three identical non-empty symbols. *)
Definition complete (b : Board) (l : line) : bool :=
  let '(p, q, r) := l in
  three_in_line (cell_at b p) (cell_at b q) (cell_at b r).

(** The symbol of the first completed line, in the order of [lines]. *)
Definition first_line (b : Board) : option player :=
  match find (complete b) lines with
  | Some (p, _, _) => cell_at b p
  | None => None
  end.

(** Top row of X, middle row of O. *)
Definition two_lines : Board :=
  Triple (Triple (Some X) (Some X) (Some X))
         (Triple (Some O) (Some O) (Some O))
         (Triple None None None).

(** Positions of a game played by the rules: from the empty board, marks
    are placed on empty cells by [make_move], which alternates the sides,
    and no mark is placed once a line is completed. *)
Inductive played : session -> Prop :=
| played_start (m : game_mode) (s0 : session) :
    played (start_game m s0)
| played_move (s : session) (b : Board) (row col : idx) :
    played s ->
    board s = Some b ->
    check_winner_on_board b = None ->
    get b row col = None ->
    played (make_move row col s).

(** ** Program states *)

(** What can happen to a session: the two ways to start a game from the
    menu, the reset and back buttons, a click on an enabled board button,
    a tick of the turn timer, a scheduled computer move coming due, and the
    acceptance of a draw request. *)
Inductive event : Type :=
| EvStartPvP
| EvStartAI (d : difficulty)
| EvReset
| EvMenu
| EvClick (row col : idx)
| EvCountdown
| EvComputerMove (r : draws)
| EvDrawAccepted.

(** The handler an event runs; [None] when the event cannot occur in [s]
    (a disabled button is not clicked, a stopped timer does not tick, no
    computer move is scheduled, draws are requested in ['pvp'] only). *)
Definition fire (fuel : nat) (e : event) (s : session) : option session :=
  match e with
  | EvStartPvP => Some (start_game PvP s)
  | EvStartAI d => Some (start_game_with_ai d s)
  | EvReset => Some (reset_game s)
  | EvMenu => Some (create_mode_selection s)
  | EvClick row col =>
    match buttons s with
    | Some bs => if get bs row col then Some (fst (handle_click row col s)) else None
    | None => None
    end
  | EvCountdown => if timer_id s then Some (countdown s) else None
  | EvComputerMove r =>
    match ai_pending s with
    | S n => computer_move fuel r (set_ai_pending s n)
    | 0%nat => None
    end
  | EvDrawAccepted =>
    match mode s with
    | Some PvP => Some (end_game_draw s)
    | _ => None
    end
  end.

Fixpoint run (fuel : nat) (es : list event) (s : session) : option session :=
  match es with
  | [] => Some s
  | e :: es' => s' <- fire fuel e s ;; run fuel es' s'
  end.

(** The states the program can be in. *)
Definition reachable (s : session) : Prop :=
  exists fuel es, run fuel es init_session = Some s.

(** ** Marks *)

Definition indicator (p : player) (c : cell) : Z :=
  if cell_eqb c (Some p) then 1 else 0.

(** The number of cells that hold [p]. *)
Definition count_marks (p : player) (b : Board) : Z :=
  fold_right Z.add 0 (map (fun m => indicator p (cell_at b m)) cells).

(** Count of X cells minus count of O cells. *)
Definition balance (b : Board) : Z := count_marks X b - count_marks O b.

(** A player-versus-player game in which O lets the clock run out:
    X plays (0,0), thirty ticks pass the turn back to X, X plays (0,1). *)
Definition timeout_trace : list event :=
  [EvStartPvP; EvClick i0 i0] ++ repeat EvCountdown 30 ++ [EvClick i0 i1].

(** States of a game in which marks are only placed while the game is in
    progress, by human clicks and by computer moves, and no turn is passed
    by a timeout. *)
Inductive in_play : session -> Prop :=
| in_play_start (m : game_mode) (s0 : session) :
    reachable s0 -> in_play (start_game m s0)
| in_play_click (s : session) (b : Board) (row col : idx) :
    in_play s ->
    board s = Some b -> evaluate b = InProgress ->
    in_play (fst (handle_click row col s))
| in_play_computer (s s' : session) (b : Board) (fuel : nat) (r : draws) :
    in_play s ->
    board s = Some b -> evaluate b = InProgress ->
    (count_empty b <= fuel)%nat ->
    computer_move fuel r s = Some s' ->
    in_play s'.

(** The invariant of a game in which every mark is placed in turn: the
    balance is 0 or 1 and, while the game is in progress, it tells whose
    turn it is. *)
Definition turn_invariant (s : session) : Prop :=
  forall b, board s = Some b ->
    0 <= balance b <= 1 /\
    (evaluate b = InProgress ->
     exists p, current_player s = Some p /\
               balance b = match p with X => 0 | O => 1 end).

(** ** Rejections and errors *)

(** A click that [handle_click] turns down: the cell is occupied, or it is
    the computer's turn. *)
Definition rejected (row col : idx) (s : session) : Prop :=
  exists b, board s = Some b /\
            (get b row col <> None \/ computer_to_move s = true).

(** The caller is told of a rejection when what a rejected call hands back
    differs from what a call that places a mark hands back. *)
Definition rejection_signalled : Prop :=
  forall row col s row' col' s',
    rejected row col s ->
    fst (handle_click row' col' s') <> s' ->
    snd (handle_click row col s) <> snd (handle_click row' col' s').

(** A game after X's first move at (0,0), in ['pvp'] mode. *)
Definition after_first_move : session :=
  fst (handle_click i0 i0 (start_game PvP init_session)).

(** The call hands a result back to its caller, as opposed to ending in an
    error (or never ending). *)
Definition returns_normally {A : Type} (o : option A) : Prop :=
  exists a, o = Some a.

(** A full board without three in a row. *)
Definition drawn_board : Board :=
  Triple (Triple (Some X) (Some O) (Some X))
         (Triple (Some X) (Some O) (Some O))
         (Triple (Some O) (Some X) (Some X)).

(** A player-versus-computer session whose game ended in a draw, at the
    time a computer move comes due: after the draw the clock kept running,
    the timeout passed the turn to O and scheduled the computer. *)
Definition drawn_session : session :=
  Session (Some PvE) Easy (Some O) (Some drawn_board) (Some (full_grid false))
          30 true 0 0.

(** The events that lead there, up to and including that computer move. *)
Definition drawn_trace : list event :=
  [EvStartAI Easy;
   EvClick i0 i0; EvComputerMove (Draws false 0);
   EvClick i0 i2; EvComputerMove (Draws false 1);
   EvClick i1 i0; EvComputerMove (Draws false 0);
   EvClick i2 i1; EvComputerMove (Draws false 0);
   EvClick i2 i2]
  ++ repeat EvCountdown 30 ++ [EvComputerMove (Draws false 0)].

(** The count of X cells minus the count of O cells is 0 or 1 in every
    state of the program. *)
Definition balance_invariant : Prop :=
  forall s b, reachable s -> board s = Some b -> 0 <= balance b <= 1.

(** Calling the search or the computer move on a decided or full board is
    an error that stops the call. *)
Definition precondition_enforced : Prop :=
  forall fuel r s b,
    board s = Some b -> evaluate b <> InProgress ->
    ~ returns_normally (get_best_move fuel s) /\
    ~ returns_normally (computer_move fuel r s).

(** ** Further vocabulary *)

(** One of the three scores a finished game can have: [-1], [0], [1]. *)
Definition unit_score (v : score) : Prop := exists z, v = Fin z /\ -1 <= z <= 1.

(** Whenever the search procedure returns, it hands the board back as it
    was and its result is a game score. *)
Definition search_partial (rec : search) : Prop :=
  forall b depth is_maximizing alpha beta r b',
    rec b depth is_maximizing alpha beta = Some (r, b') ->
    b' = b /\ unit_score r.

(** Invariant of the scan of [get_best_move] on board [b], after the cells
    [done]: either no empty cell has been met and the best move is still the
    default, or the best move is an empty cell and the best score a game
    score. *)
Definition best_inv (b : Board) (done : list move) (st : best) : Prop :=
  b_board st = b /\
  ((best_score st = NegInf /\ best_move st = (i0, i0) /\
    forall c, In c done -> cell_at b c <> None) \/
   (unit_score (best_score st) /\ cell_at b (best_move st) = None)).

(** The attributes a game needs are set together, an enabled board button
    lies on an empty cell, and a decided game has no enabled board button. *)
Definition coherent (s : session) : Prop :=
  match board s with
  | None => buttons s = None /\ current_player s = None /\ mode s = None
  | Some b =>
    exists bs p m,
      buttons s = Some bs /\ current_player s = Some p /\ mode s = Some m /\
      (forall r c, get bs r c = true -> get b r c = None) /\
      (evaluate b <> InProgress -> bs = full_grid false)
  end.

(** [n] ticks of the turn timer. *)
Fixpoint ticks (n : nat) (s : session) : session :=
  match n with
  | 0%nat => s
  | S k => countdown (ticks k s)
  end.

Definition o_to_move (p : player) : bool :=
  match p with O => true | X => false end.

(** The position is not lost for O: its plain minimax value, for the side
    to move, is at least 0. *)
Definition safe_for_computer (s : session) : Prop :=
  mode s = Some PvE /\ ai_difficulty s = Hard /\
  forall b, board s = Some b ->
    exists p, current_player s = Some p /\
              score_le (Fin 0) (plain_minimax b (o_to_move p)).

(** A game against the computer at difficulty ['hard'] in which no turn
    times out: the human clicks, and the computer moves when it is its
    turn, while the game is in progress. *)
Inductive hard_game : session -> Prop :=
| hard_start (s0 : session) :
    hard_game (start_game_with_ai Hard s0)
| hard_click (s : session) (b : Board) (row col : idx) :
    hard_game s ->
    board s = Some b -> evaluate b = InProgress ->
    hard_game (fst (handle_click row col s))
| hard_computer (s s' : session) (b : Board) (fuel : nat) (r : draws) :
    hard_game s ->
    board s = Some b -> evaluate b = InProgress ->
    computer_to_move s = true ->
    (count_empty b <= fuel)%nat ->
    computer_move fuel r s = Some s' ->
    hard_game s'.
(** * Properties *)

(** Case analysis on the tests a handler makes. *)
Ltac handler_cases :=
  repeat match goal with
         | |- context [match ?x with _ => _ end] =>
           lazymatch x with
           | context [match _ with _ => _ end] => fail
           | _ => destruct x eqn:?; cbn in *
           end
         end.

(** ** Boards *)

Lemma get_set_same {A : Type} (b : grid A) (i j : idx) (c : A) :
  get (set b i j c) i j = c.
Proof. destruct i, j; reflexivity. Qed.

Lemma get_set_other {A : Type} (b : grid A) (i j k l : idx) (c : A) :
  (i, j) <> (k, l) -> get (set b i j c) k l = get b k l.
Proof. destruct i, j, k, l; intros H; try reflexivity; now elim H. Qed.

Lemma set_set {A : Type} (b : grid A) (i j : idx) (c d : A) :
  set (set b i j c) i j d = set b i j d.
Proof. destruct i, j; reflexivity. Qed.

Lemma set_get {A : Type} (b : grid A) (i j : idx) :
  set b i j (get b i j) = b.
Proof. destruct b as [[] [] []], i, j; reflexivity. Qed.

(** Undoing a tentative mark on an empty cell gives the board back. *)
Lemma set_undo (b : Board) (i j : idx) (c : cell) :
  get b i j = None -> set (set b i j c) i j None = b.
Proof. intros H. rewrite set_set, <- H. apply set_get. Qed.

Lemma idx_eq_dec (i j : idx) : {i = j} + {i <> j}.
Proof. decide equality. Defined.

Lemma move_eq_dec (m n : move) : {m = n} + {m <> n}.
Proof. decide equality; apply idx_eq_dec. Defined.

Lemma in_cells (m : move) : In m cells.
Proof. destruct m as [[] []]; simpl; tauto. Qed.

Lemma in_legal_moves (b : Board) (m : move) :
  In m (legal_moves b) <-> get b (fst m) (snd m) = None.
Proof.
  unfold legal_moves. rewrite filter_In. split.
  - intros [_ H]. now destruct (get b (fst m) (snd m)).
  - intros H. split; [apply in_cells | now rewrite H].
Qed.

(** Filling an empty cell leaves one empty cell fewer. *)
Lemma count_empty_set (b : Board) (i j : idx) (p : player) :
  get b i j = None -> S (count_empty (set b i j (Some p))) = count_empty b.
Proof.
  destruct b as [[a00 a01 a02] [a10 a11 a12] [a20 a21 a22]].
  unfold count_empty, legal_moves.
  destruct i, j; cbn; intros ->; cbn;
    repeat match goal with |- context [is_none ?c] => destruct c; cbn end;
    reflexivity.
Qed.

(** A board has nine cells: fuel 10 is enough for every search. *)
Lemma count_empty_bound (b : Board) : (count_empty b <= 9)%nat.
Proof.
  unfold count_empty, legal_moves.
  now rewrite (filter_length_le _ cells).
Qed.

Lemma count_empty_apply (b : Board) (m : move) (p : player) :
  In m (legal_moves b) -> S (count_empty (apply_move b m p)) = count_empty b.
Proof. intros H. apply count_empty_set. now apply in_legal_moves. Qed.

Lemma not_full_has_move (b : Board) :
  is_board_full b = false -> legal_moves b <> [].
Proof.
  destruct b as [[a00 a01 a02] [a10 a11 a12] [a20 a21 a22]].
  unfold is_board_full, legal_moves; cbn.
  repeat match goal with |- context [is_none ?c] => destruct c; cbn end;
    intros H; try discriminate H; intros E; discriminate E.
Qed.

(** ** Scores *)

Lemma score_lt_iff (a b : score) :
  score_lt a b <-> rk a < rk b \/ (rk a = rk b /\ vl a < vl b).
Proof.
  unfold score_lt; destruct a, b; cbn; try (split; [intros; lia | intros; reflexivity]);
    try (split; [discriminate | lia]).
  rewrite Z.ltb_lt. lia.
Qed.

Lemma score_le_iff (a b : score) :
  score_le a b <-> rk a < rk b \/ (rk a = rk b /\ vl a <= vl b).
Proof.
  unfold score_le; destruct a, b; cbn; try (split; [intros; lia | intros; reflexivity]);
    try (split; [discriminate | lia]).
  rewrite Z.ltb_ge. lia.
Qed.

Lemma score_eq_iff (a b : score) : a = b <-> rk a = rk b /\ vl a = vl b.
Proof.
  split; [now intros -> |].
  destruct a, b; cbn; intros [H1 H2]; try discriminate H1; congruence.
Qed.

Lemma rk_range (a : score) : 0 <= rk a <= 2 /\ (rk a <> 1 -> vl a = 0).
Proof. destruct a; cbn; lia. Qed.

Lemma py_max_spec (a b : score) :
  (score_lt a b /\ py_max a b = b) \/ (score_le b a /\ py_max a b = a).
Proof.
  unfold py_max, score_lt, score_le.
  destruct (score_ltb a b) eqn:E; [left | right]; split; auto.
Qed.

Lemma py_min_spec (a b : score) :
  (score_lt b a /\ py_min a b = b) \/ (score_le a b /\ py_min a b = a).
Proof.
  unfold py_min, score_lt, score_le.
  destruct (score_ltb b a) eqn:E; [left | right]; split; auto.
Qed.

Lemma score_lt_le_dec (a b : score) : {score_lt a b} + {score_le b a}.
Proof.
  unfold score_lt, score_le. destruct (score_ltb a b); [left | right]; reflexivity.
Qed.

Lemma score_le_NegInf (a : score) : score_le NegInf a.
Proof. now destruct a. Qed.

Lemma score_le_PosInf (a : score) : score_le a PosInf.
Proof. now destruct a. Qed.

(** The scores are totally ordered. *)
Module ScoreOrderFacts <: IsTotalOrder ScoreOrder.

#[global] Instance eq_equiv : Equivalence ScoreOrder.eq.
Proof. unfold ScoreOrder.eq. split; congruence. Qed.

#[global] Instance lt_strorder : StrictOrder ScoreOrder.lt.
Proof.
  split.
  - intros x H. apply score_lt_iff in H. lia.
  - intros x y z H1 H2. apply score_lt_iff in H1, H2. apply score_lt_iff. lia.
Qed.

#[global] Instance lt_compat :
  Proper (ScoreOrder.eq ==> ScoreOrder.eq ==> iff) ScoreOrder.lt.
Proof. intros x x' -> y y' ->. reflexivity. Qed.

Lemma le_lteq (x y : score) :
  ScoreOrder.le x y <-> ScoreOrder.lt x y \/ ScoreOrder.eq x y.
Proof.
  unfold ScoreOrder.le, ScoreOrder.lt, ScoreOrder.eq.
  rewrite score_le_iff, score_lt_iff, score_eq_iff. lia.
Qed.

Lemma lt_total (x y : score) :
  ScoreOrder.lt x y \/ ScoreOrder.eq x y \/ ScoreOrder.lt y x.
Proof.
  unfold ScoreOrder.lt, ScoreOrder.eq.
  rewrite !score_lt_iff, score_eq_iff.
  pose proof (rk_range x); pose proof (rk_range y). lia.
Qed.

End ScoreOrderFacts.

Module ScoreTac := MakeOrderTac ScoreOrder ScoreOrderFacts.

(** Decides statements about the order of scores, [py_max] and [py_min]:
    case analysis on each maximum, minimum and premise, then the order
    tactic. *)
Ltac score_split :=
  repeat match goal with
         | |- context [py_max ?a ?b] =>
           let H := fresh in destruct (py_max_spec a b) as [[? H] | [? H]]; rewrite H in *; clear H
         | H0 : context [py_max ?a ?b] |- _ =>
           let H := fresh in destruct (py_max_spec a b) as [[? H] | [? H]]; rewrite H in *; clear H
         | |- context [py_min ?a ?b] =>
           let H := fresh in destruct (py_min_spec a b) as [[? H] | [? H]]; rewrite H in *; clear H
         | H0 : context [py_min ?a ?b] |- _ =>
           let H := fresh in destruct (py_min_spec a b) as [[? H] | [? H]]; rewrite H in *; clear H
         end.

Ltac score_premises :=
  repeat match goal with
         | H : _ /\ _ |- _ => destruct H
         | H : score_le ?x ?y -> _ |- _ =>
           let G := fresh in
           destruct (score_lt_le_dec y x) as [G | G]; [clear H | specialize (H G)]
         | H : score_lt ?x ?y -> _ |- _ =>
           let G := fresh in
           destruct (score_lt_le_dec x y) as [G | G]; [specialize (H G) | clear H]
         end.

Ltac score_extremes :=
  repeat match goal with
         | s : score |- _ =>
           lazymatch goal with
           | _ : score_le NegInf s |- _ => fail
           | _ => pose proof (score_le_NegInf s); pose proof (score_le_PosInf s)
           end
         end.

Ltac score_solve :=
  unfold bounded in *; score_split; score_premises; score_extremes; ScoreTac.order.

Lemma score_leb_le (a b : score) : score_leb a b = true <-> score_le a b.
Proof. unfold score_leb, score_le. now destruct (score_ltb b a). Qed.

Lemma bounded_exact (alpha beta v : score) : bounded alpha beta v v.
Proof. unfold bounded; tauto. Qed.

Lemma bounded_full (v r : score) : is_fin v -> bounded NegInf PosInf v r -> r = v.
Proof. intros [z ->] (_ & H & _). now apply H. Qed.

(** ** Loops *)

Lemma for_each_app {A St : Type} (l1 l2 : list A) (body : A -> St -> option St) (s : St) :
  for_each (l1 ++ l2) body s = s' <- for_each l1 body s ;; for_each l2 body s'.
Proof.
  revert s; induction l1 as [|a l1 IH]; intros s; cbn; [reflexivity|].
  destruct (body a s); cbn; auto.
Qed.

Lemma for_each_map {A B St : Type} (f : A -> B) (l : list A)
  (body : B -> St -> option St) (s : St) :
  for_each (map f l) body s = for_each l (fun a => body (f a)) s.
Proof.
  revert s; induction l as [|a l IH]; intros s; cbn; [reflexivity|].
  destruct (body (f a) s); cbn; auto.
Qed.

(** Two nested [for] loops without [break] scan the product of their ranges. *)
Lemma for_each_nested {A B St : Type} (l1 : list A) (l2 : list B)
  (body : A -> B -> St -> option St) (s : St) :
  for_each l1 (fun a => for_each l2 (body a)) s =
  for_each (list_prod l1 l2) (fun c => body (fst c) (snd c)) s.
Proof.
  revert s; induction l1 as [|a l1 IH]; intros s; cbn; [reflexivity|].
  rewrite for_each_app, for_each_map; cbn.
  destruct (for_each l2 (body a) s); cbn; auto.
Qed.

Lemma fold_left_filter_map {A B : Type} (g : B -> B -> B) (f : A -> B) (p : A -> bool)
  (l : list A) (a : B) :
  fold_left g (map f (filter p l)) a =
  fold_left (fun acc c => if p c then g acc (f c) else acc) l a.
Proof.
  revert a; induction l as [|c l IH]; intros a; cbn; [reflexivity|].
  destruct (p c); cbn; auto.
Qed.

(** ** The plain minimax recursion *)

Lemma evaluate_in_progress (b : Board) :
  evaluate b = InProgress <->
  check_winner_on_board b = None /\ is_board_full b = false.
Proof.
  unfold evaluate, is_draw.
  destruct (check_winner_on_board b), (is_board_full b); cbn;
    split; try intros [? ?]; try discriminate; auto.
Qed.

Lemma fold_max_fin (l : list score) (a : score) :
  (forall x, In x l -> is_fin x) ->
  is_fin a \/ (a = NegInf /\ l <> []) ->
  is_fin (fold_left py_max l a).
Proof.
  revert a; induction l as [|x l IH]; intros a Hl Ha; cbn.
  - destruct Ha as [Ha | [_ Ha]]; [exact Ha | now elim Ha].
  - apply IH; [intros y Hy; apply Hl; now right|].
    left. destruct (Hl x (or_introl eq_refl)) as [z ->].
    destruct Ha as [[y ->] | [-> _]]; unfold py_max, is_fin; cbn; eauto.
    destruct (y <? z); eauto.
Qed.

Lemma fold_min_fin (l : list score) (a : score) :
  (forall x, In x l -> is_fin x) ->
  is_fin a \/ (a = PosInf /\ l <> []) ->
  is_fin (fold_left py_min l a).
Proof.
  revert a; induction l as [|x l IH]; intros a Hl Ha; cbn.
  - destruct Ha as [Ha | [_ Ha]]; [exact Ha | now elim Ha].
  - apply IH; [intros y Hy; apply Hl; now right|].
    left. destruct (Hl x (or_introl eq_refl)) as [z ->].
    destruct Ha as [[y ->] | [-> _]]; unfold py_min, is_fin; cbn; eauto.
    destruct (z <? y); eauto.
Qed.

Lemma map_not_nil {A B : Type} (f : A -> B) (l : list A) : l <> [] -> map f l <> [].
Proof. destruct l; [now intros H | intros _ E; discriminate E]. Qed.

Lemma plain_minimax_fuel_S (fuel : nat) (b : Board) (is_maximizing : bool) :
  plain_minimax_fuel (S fuel) b is_maximizing =
  match evaluate b with
  | Win O => Fin 1
  | Win X => Fin (-1)
  | Draw => Fin 0
  | InProgress =>
    if is_maximizing
    then fold_left py_max
           (map (fun m => plain_minimax_fuel fuel (apply_move b m O) false) (legal_moves b))
           NegInf
    else fold_left py_min
           (map (fun m => plain_minimax_fuel fuel (apply_move b m X) true) (legal_moves b))
           PosInf
  end.
Proof. reflexivity. Qed.

(** The plain value is always one of the integers, never an infinity. *)
Lemma plain_minimax_fuel_fin (fuel : nat) (b : Board) (is_maximizing : bool) :
  is_fin (plain_minimax_fuel fuel b is_maximizing).
Proof.
  revert b is_maximizing; induction fuel as [|fuel IH]; intros b mx.
  - now exists 0.
  - rewrite plain_minimax_fuel_S. destruct (evaluate b) as [| [|] |] eqn:E; try (eexists; reflexivity).
    apply evaluate_in_progress in E as [_ E]. apply not_full_has_move in E.
    destruct mx.
    + apply fold_max_fin.
      * intros x Hx. apply in_map_iff in Hx as (m & <- & _). apply IH.
      * right. split; [reflexivity | now apply map_not_nil].
    + apply fold_min_fin.
      * intros x Hx. apply in_map_iff in Hx as (m & <- & _). apply IH.
      * right. split; [reflexivity | now apply map_not_nil].
Qed.

Lemma plain_minimax_fin (b : Board) (is_maximizing : bool) :
  is_fin (plain_minimax b is_maximizing).
Proof. apply plain_minimax_fuel_fin. Qed.

(** Fuel beyond the number of empty cells does not change the value. *)
Lemma plain_minimax_fuel_irrel (f1 f2 : nat) (b : Board) (is_maximizing : bool) :
  (count_empty b < f1)%nat -> (count_empty b < f2)%nat ->
  plain_minimax_fuel f1 b is_maximizing = plain_minimax_fuel f2 b is_maximizing.
Proof.
  revert f2 b is_maximizing; induction f1 as [|f1 IH]; intros f2 b mx H1 H2; [lia|].
  destruct f2 as [|f2]; [lia|]. rewrite !plain_minimax_fuel_S.
  destruct (evaluate b) as [| [|] |]; try reflexivity.
  destruct mx; f_equal; apply map_ext_in; intros m Hm;
    [ pose proof (count_empty_apply b m O Hm) | pose proof (count_empty_apply b m X Hm) ];
    apply IH; lia.
Qed.

(** The recursion equation of the plain value. *)
Lemma plain_minimax_eq (b : Board) (is_maximizing : bool) :
  plain_minimax b is_maximizing =
  match evaluate b with
  | Win O => Fin 1
  | Win X => Fin (-1)
  | Draw => Fin 0
  | InProgress =>
    if is_maximizing
    then fold_left py_max
           (map (fun m => plain_minimax (apply_move b m O) false) (legal_moves b)) NegInf
    else fold_left py_min
           (map (fun m => plain_minimax (apply_move b m X) true) (legal_moves b)) PosInf
  end.
Proof.
  unfold plain_minimax at 1. rewrite plain_minimax_fuel_S.
  destruct (evaluate b) as [| [|] |]; try reflexivity.
  destruct is_maximizing; f_equal; apply map_ext_in; intros m Hm;
    [ pose proof (count_empty_apply b m O Hm) | pose proof (count_empty_apply b m X Hm) ];
    apply plain_minimax_fuel_irrel; lia.
Qed.

(** The same equation, as a scan of all nine cells. *)
Lemma plain_minimax_scan (b : Board) (is_maximizing : bool) :
  evaluate b = InProgress ->
  plain_minimax b is_maximizing =
  if is_maximizing then fold_left (max_step b) cells NegInf
  else fold_left (min_step b) cells PosInf.
Proof.
  intros E. rewrite plain_minimax_eq, E. unfold legal_moves.
  destruct is_maximizing; apply fold_left_filter_map.
Qed.

(** ** Alpha-beta search *)

Section MaxLoop.

Variables (rec : search) (b : Board) (depth : Z) (alpha beta : score).

(** The recursive calls behave on the positions after each legal move. *)
Hypothesis Hrec :
  forall i j, get b i j = None -> search_ok rec (set b i j (Some O)).

Lemma max_body_inv (i j : idx) (st : frame) (m : score) :
  max_inv b alpha beta st m ->
  exists st' fl,
    max_body rec depth i j st = Some (st', fl) /\
    max_inv b alpha beta st' (max_step b m (i, j)) /\
    (fl = Break -> score_le beta (f_alpha st')).
Proof.
  destruct st as [bd e a bt]. unfold max_inv; cbn.
  intros (-> & -> & Ha & Hv).
  unfold max_body, max_step; cbn. destruct (get b i j) eqn:G; cbn.
  - exists (Frame b e a beta), Next. cbn. repeat split; auto. discriminate.
  - destruct (Hrec i j G (depth + 1) false a beta) as (r & Hr & Hb).
    rewrite Hr; cbn. rewrite (set_undo b i j _ G).
    unfold apply_move; cbn.
    set (v := plain_minimax (set b i j (Some O)) false) in *. clearbody v.
    eexists _, _. split; [reflexivity|]. cbn. split; [split; [|split; [|split]] |].
    + reflexivity.
    + reflexivity.
    + subst a. clear. score_solve.
    + intros Hab. destruct (Hv Hab) as [[Hlt Hm] | [Hle Hm]].
      * specialize (Hb Hlt). subst a. clear Hv Hr Hrec G.
        destruct (score_ltb (py_max (py_max alpha e) r) beta) eqn:C; [left | right].
        -- fold (score_lt (py_max (py_max alpha e) r) beta) in C.
           revert C Hb Hm Hlt Hab; clear; intros; split; score_solve.
        -- fold (score_le beta (py_max (py_max alpha e) r)) in C.
           revert C Hb Hm Hlt Hab; clear; intros; split; score_solve.
      * right. subst a. revert Hle Hm Hab; clear; intros; split; score_solve.
    + destruct (score_leb beta (py_max a r)) eqn:C; [|discriminate].
      intros _. now apply score_leb_le.
Qed.


(** After a cutoff the invariant survives whatever the plain scan adds. *)
Lemma max_inv_cut (st : frame) (m : score) (l : list move) :
  max_inv b alpha beta st m ->
  score_le beta (f_alpha st) ->
  max_inv b alpha beta st (fold_left (max_step b) l m).
Proof.
  revert m; induction l as [|c l IH]; intros m Hi Hc; cbn; [exact Hi|].
  apply IH; [|exact Hc].
  destruct Hi as (Hb & Hbt & Ha & Hv). repeat split; auto.
  intros Hab. right. split; [exact Hc|].
  destruct (Hv Hab) as [[Hlt _] | [_ Hm]]; [ScoreTac.order|].
  unfold max_step. destruct (is_none _); [|exact Hm].
  revert Hm; clear; intros; score_solve.
Qed.

Lemma max_inner_inv (i : idx) (l : list idx) (st : frame) (m : score) :
  max_inv b alpha beta st m ->
  exists st',
    for_break l (max_body rec depth i) st = Some st' /\
    max_inv b alpha beta st' (fold_left (max_step b) (map (pair i) l) m).
Proof.
  revert st m; induction l as [|j l IH]; intros st m Hi; cbn.
  - now exists st.
  - destruct (max_body_inv i j st m Hi) as (st1 & fl & -> & Hi1 & Hfl); cbn.
    destruct fl.
    + apply IH, Hi1.
    + exists st1. split; [reflexivity|]. now apply max_inv_cut; [|apply Hfl].
Qed.

Lemma max_outer_inv (l : list idx) (st : frame) (m : score) :
  max_inv b alpha beta st m ->
  exists st',
    for_each l (fun i => for_break range3 (max_body rec depth i)) st = Some st' /\
    max_inv b alpha beta st' (fold_left (max_step b) (list_prod l range3) m).
Proof.
  revert st m; induction l as [|i l IH]; intros st m Hi.
  - now exists st.
  - change (list_prod (i :: l) range3)
      with (map (pair i) range3 ++ list_prod l range3).
    rewrite fold_left_app.
    destruct (max_inner_inv i range3 st m Hi) as (st1 & E & Hi1).
    cbn [for_each]. rewrite E. cbn [obind]. apply IH, Hi1.
Qed.

(** The two loops of the maximizing branch: they end, leave the board as
    it was, and their [max_eval] is bounded by the plain maximum. *)
Lemma max_branch :
  exists st',
    for_each range3 (fun i => for_break range3 (max_body rec depth i))
      (Frame b NegInf alpha beta) = Some st' /\
    f_board st' = b /\
    (score_lt alpha beta ->
     bounded alpha beta (fold_left (max_step b) cells NegInf) (f_eval st')).
Proof.
  destruct (max_outer_inv range3 (Frame b NegInf alpha beta) NegInf)
    as (st' & E & Hb & _ & Ha & Hv).
  - repeat split; cbn; auto; try (clear; score_solve);
      try (intros Hab; left; split; [exact Hab | clear; score_solve]).
  - exists st'. split; [exact E|]. split; [exact Hb|].
    intros Hab. fold cells in Hv.
    destruct (Hv Hab) as [[H1 H2] | [H1 H2]]; rewrite Ha in *;
      revert H1 H2 Hab; clear; intros; unfold bounded; repeat split; intros;
      score_solve.
Qed.

End MaxLoop.

Section MinLoop.

Variables (rec : search) (b : Board) (depth : Z) (alpha beta : score).

Hypothesis Hrec :
  forall i j, get b i j = None -> search_ok rec (set b i j (Some X)).

Lemma min_body_inv (i j : idx) (st : frame) (m : score) :
  min_inv b alpha beta st m ->
  exists st' fl,
    min_body rec depth i j st = Some (st', fl) /\
    min_inv b alpha beta st' (min_step b m (i, j)) /\
    (fl = Break -> score_le (f_beta st') alpha).
Proof.
  destruct st as [bd e a bt]. unfold min_inv; cbn.
  intros (-> & -> & Hbt & Hv).
  unfold min_body, min_step; cbn. destruct (get b i j) eqn:G; cbn.
  - exists (Frame b e alpha bt), Next. cbn. repeat split; auto. discriminate.
  - destruct (Hrec i j G (depth + 1) true alpha bt) as (r & Hr & Hb).
    rewrite Hr; cbn. rewrite (set_undo b i j _ G).
    unfold apply_move; cbn.
    set (v := plain_minimax (set b i j (Some X)) true) in *. clearbody v.
    eexists _, _. split; [reflexivity|]. cbn. split; [split; [|split; [|split]] |].
    + reflexivity.
    + reflexivity.
    + subst bt. clear. score_solve.
    + intros Hab. destruct (Hv Hab) as [[Hlt Hm] | [Hle Hm]].
      * specialize (Hb Hlt). subst bt. clear Hv Hr Hrec G.
        destruct (score_ltb alpha (py_min (py_min beta e) r)) eqn:C; [left | right].
        -- fold (score_lt alpha (py_min (py_min beta e) r)) in C.
           revert C Hb Hm Hlt Hab; clear; intros; split; score_solve.
        -- fold (score_le (py_min (py_min beta e) r) alpha) in C.
           revert C Hb Hm Hlt Hab; clear; intros; split; score_solve.
      * right. subst bt. revert Hle Hm Hab; clear; intros; split; score_solve.
    + destruct (score_leb (py_min bt r) alpha) eqn:C; [|discriminate].
      intros _. now apply score_leb_le.
Qed.

Lemma min_inv_cut (st : frame) (m : score) (l : list move) :
  min_inv b alpha beta st m ->
  score_le (f_beta st) alpha ->
  min_inv b alpha beta st (fold_left (min_step b) l m).
Proof.
  revert m; induction l as [|c l IH]; intros m Hi Hc; cbn; [exact Hi|].
  apply IH; [|exact Hc].
  destruct Hi as (Hb & Ha & Hbt & Hv). repeat split; auto.
  intros Hab. right. split; [exact Hc|].
  destruct (Hv Hab) as [[Hlt _] | [_ Hm]]; [ScoreTac.order|].
  unfold min_step. destruct (is_none _); [|exact Hm].
  revert Hm; clear; intros; score_solve.
Qed.

Lemma min_inner_inv (i : idx) (l : list idx) (st : frame) (m : score) :
  min_inv b alpha beta st m ->
  exists st',
    for_break l (min_body rec depth i) st = Some st' /\
    min_inv b alpha beta st' (fold_left (min_step b) (map (pair i) l) m).
Proof.
  revert st m; induction l as [|j l IH]; intros st m Hi; cbn.
  - now exists st.
  - destruct (min_body_inv i j st m Hi) as (st1 & fl & -> & Hi1 & Hfl); cbn.
    destruct fl.
    + apply IH, Hi1.
    + exists st1. split; [reflexivity|]. now apply min_inv_cut; [|apply Hfl].
Qed.

Lemma min_outer_inv (l : list idx) (st : frame) (m : score) :
  min_inv b alpha beta st m ->
  exists st',
    for_each l (fun i => for_break range3 (min_body rec depth i)) st = Some st' /\
    min_inv b alpha beta st' (fold_left (min_step b) (list_prod l range3) m).
Proof.
  revert st m; induction l as [|i l IH]; intros st m Hi.
  - now exists st.
  - change (list_prod (i :: l) range3)
      with (map (pair i) range3 ++ list_prod l range3).
    rewrite fold_left_app.
    destruct (min_inner_inv i range3 st m Hi) as (st1 & E & Hi1).
    cbn [for_each]. rewrite E. cbn [obind]. apply IH, Hi1.
Qed.

(** The two loops of the minimizing branch. *)
Lemma min_branch :
  exists st',
    for_each range3 (fun i => for_break range3 (min_body rec depth i))
      (Frame b PosInf alpha beta) = Some st' /\
    f_board st' = b /\
    (score_lt alpha beta ->
     bounded alpha beta (fold_left (min_step b) cells PosInf) (f_eval st')).
Proof.
  destruct (min_outer_inv range3 (Frame b PosInf alpha beta) PosInf)
    as (st' & E & Hb & _ & Hbt & Hv).
  - repeat split; cbn; auto; try (clear; score_solve);
      try (intros Hab; left; split; [exact Hab | clear; score_solve]).
  - exists st'. split; [exact E|]. split; [exact Hb|].
    intros Hab. fold cells in Hv.
    destruct (Hv Hab) as [[H1 H2] | [H1 H2]]; rewrite Hbt in *;
      revert H1 H2 Hab; clear; intros; unfold bounded; repeat split; intros;
      score_solve.
Qed.

End MinLoop.

(** With more fuel than empty cells, [minimax] returns, restores the board,
    and its result is bounded by the plain minimax value. *)
Lemma minimax_search_ok (fuel : nat) (b : Board) :
  (count_empty b < fuel)%nat -> search_ok (minimax fuel) b.
Proof.
  revert b; induction fuel as [|fuel IH]; intros b Hf; [lia|].
  intros depth mx alpha beta. cbn [minimax].
  destruct (check_winner_on_board b) as [[|]|] eqn:W.
  - eexists; split; [reflexivity|].
    rewrite plain_minimax_eq; unfold evaluate; rewrite W.
    intros _; apply bounded_exact.
  - eexists; split; [reflexivity|].
    rewrite plain_minimax_eq; unfold evaluate; rewrite W.
    intros _; apply bounded_exact.
  - destruct (is_board_full b) eqn:Hfull.
    + eexists; split; [reflexivity|].
      rewrite plain_minimax_eq; unfold evaluate, is_draw; rewrite W, Hfull.
      intros _; apply bounded_exact.
    + assert (E : evaluate b = InProgress) by (apply evaluate_in_progress; auto).
      rewrite (plain_minimax_scan b mx E). destruct mx.
      * destruct (max_branch (minimax fuel) b depth alpha beta) as (st' & E1 & Hb & Hv).
        { intros i j G. apply IH. pose proof (count_empty_set b i j O G). lia. }
        rewrite E1. cbn [obind]. exists (f_eval st'). rewrite Hb. split; auto.
      * destruct (min_branch (minimax fuel) b depth alpha beta) as (st' & E1 & Hb & Hv).
        { intros i j G. apply IH. pose proof (count_empty_set b i j X G). lia. }
        rewrite E1. cbn [obind]. exists (f_eval st'). rewrite Hb. split; auto.
Qed.

(** A search over the whole range computes the plain minimax value. *)
Lemma minimax_full_window (fuel : nat) (b : Board) (depth : Z) (is_maximizing : bool) :
  (count_empty b < fuel)%nat ->
  minimax fuel b depth is_maximizing NegInf PosInf =
  Some (plain_minimax b is_maximizing, b).
Proof.
  intros Hf.
  destruct (minimax_search_ok fuel b Hf depth is_maximizing NegInf PosInf)
    as (r & E & Hb).
  rewrite E. do 2 f_equal.
  apply bounded_full; [apply plain_minimax_fin | now apply Hb].
Qed.

(** ** Choice of the move *)

Lemma best_step_board (acc : best) (c : move) :
  b_board (best_step acc c) = b_board acc.
Proof.
  unfold best_step. destruct (is_none _); [|reflexivity].
  now destruct (score_ltb _ _).
Qed.

Lemma fold_best_step_board (l : list move) (acc : best) :
  b_board (fold_left best_step l acc) = b_board acc.
Proof.
  revert acc; induction l as [|c l IH]; intros acc; cbn; [reflexivity|].
  now rewrite IH, best_step_board.
Qed.

Lemma best_body_step (fuel : nat) (i j : idx) (st : best) :
  (count_empty (b_board st) <= fuel)%nat ->
  best_body fuel i j st = Some (best_step st (i, j)).
Proof.
  intros Hf. destruct st as [b sc mv]; cbn in *.
  unfold best_body, best_step; cbn. destruct (get b i j) eqn:G; cbn; [reflexivity|].
  rewrite minimax_full_window
    by (pose proof (count_empty_set b i j O G); lia).
  cbn. rewrite (set_undo b i j _ G).
  unfold move_value, apply_move; cbn.
  now destruct (score_ltb _ _).
Qed.

Lemma best_scan (fuel : nat) (l : list move) (st : best) :
  (count_empty (b_board st) <= fuel)%nat ->
  for_each l (fun c => best_body fuel (fst c) (snd c)) st =
  Some (fold_left best_step l st).
Proof.
  revert st; induction l as [|[i j] l IH]; intros st Hf; cbn; [reflexivity|].
  rewrite best_body_step by exact Hf. cbn.
  apply IH. now rewrite best_step_board.
Qed.

Lemma set_board_same (s : session) (b : Board) :
  board s = Some b -> set_board s (Some b) = s.
Proof. destruct s; cbn; now intros ->. Qed.

(** [get_best_move] returns the move of the scan and leaves the session as
    it found it. *)
Lemma get_best_move_scan (fuel : nat) (s : session) (b : Board) :
  board s = Some b ->
  (count_empty b <= fuel)%nat ->
  get_best_move fuel s = Some (chosen_move b, s).
Proof.
  intros Hb Hf. unfold get_best_move, chosen_move. rewrite Hb.
  rewrite for_each_nested. fold cells.
  rewrite best_scan by exact Hf. cbn [obind].
  rewrite fold_best_step_board. cbn [b_board].
  now rewrite set_board_same.
Qed.

(** What the scan settles on: either nothing beat the starting score, or the
    result is the first cell of the scan whose value is the greatest. *)
Lemma best_fold_spec (b : Board) (l : list move) (acc : best) :
  b_board acc = b ->
  let r := fold_left best_step l acc in
  (r = acc /\
   forall c, In c l -> get b (fst c) (snd c) = None ->
             score_le (move_value b c) (best_score acc))
  \/
  (exists l1 l2,
      l = l1 ++ best_move r :: l2 /\
      get b (fst (best_move r)) (snd (best_move r)) = None /\
      best_score r = move_value b (best_move r) /\
      score_lt (best_score acc) (best_score r) /\
      (forall c, In c l1 -> get b (fst c) (snd c) = None ->
                 score_lt (move_value b c) (best_score r)) /\
      (forall c, In c l2 -> get b (fst c) (snd c) = None ->
                 score_le (move_value b c) (best_score r))).
Proof.
  revert acc; induction l as [|c l IH]; intros acc Hb; cbn.
  - left. split; [reflexivity | intros c []].
  - assert (Hb1 : b_board (best_step acc c) = b) by now rewrite best_step_board.
    specialize (IH (best_step acc c) Hb1). cbn in IH.
    set (r := fold_left best_step l (best_step acc c)) in *.
    unfold best_step in *. rewrite Hb in *.
    destruct (get b (fst c) (snd c)) eqn:G; cbn [is_none] in *.
    + (* occupied cell: skipped *)
      destruct IH as [[E Hl] | (l1 & l2 & E & Hg & Hs & Hlt & H1 & H2)].
      * left. split; [exact E|]. intros c' [<- | Hc'] G'; [congruence | auto].
      * right. exists (c :: l1), l2. rewrite E at 1. repeat split; auto.
        intros c' [<- | Hc'] G'; [congruence | auto].
    + destruct (score_ltb (best_score acc) (move_value b c)) eqn:C.
      * (* a new best move *)
        fold (score_lt (best_score acc) (move_value b c)) in C.
        destruct IH as [[E Hl] | (l1 & l2 & E & Hg & Hs & Hlt & H1 & H2)];
          cbn [best_score best_move] in *.
        -- right. exists [], l. rewrite E; cbn. repeat split; auto. intros c' [].
        -- right. exists (c :: l1), l2. rewrite E at 1. repeat split; auto.
           ++ ScoreTac.order.
           ++ intros c' [<- | Hc'] G'; auto.
      * (* not better than the best so far *)
        fold (score_le (move_value b c) (best_score acc)) in C.
        destruct IH as [[E Hl] | (l1 & l2 & E & Hg & Hs & Hlt & H1 & H2)].
        -- left. split; [exact E|]. intros c' [<- | Hc'] G'; auto.
        -- right. exists (c :: l1), l2. rewrite E at 1. repeat split; auto.
           intros c' [<- | Hc'] G'; [ScoreTac.order | auto].
Qed.

Lemma move_value_fin (b : Board) (c : move) : is_fin (move_value b c).
Proof. apply plain_minimax_fin. Qed.

(** The scan visits the cells in increasing row-major position. *)
Lemma cells_split (l1 l2 : list move) (m : move) :
  cells = l1 ++ m :: l2 ->
  forall c, (scan_index c < scan_index m)%nat -> In c l1.
Proof.
  intros E c Hc.
  assert (Hin : In c (l1 ++ m :: l2)) by (rewrite <- E; apply in_cells).
  assert (Hs : StronglySorted (fun x y => (scan_index x < scan_index y)%nat) cells)
    by (unfold cells; cbn; repeat constructor).
  rewrite E in Hs. clear E.
  induction l1 as [|x l1 IH]; cbn in *.
  - apply StronglySorted_inv in Hs as [_ Hm].
    destruct Hin as [<- | Hin]; [lia|].
    rewrite Forall_forall in Hm. specialize (Hm c Hin). lia.
  - apply StronglySorted_inv in Hs as [Hs _].
    destruct Hin as [-> | Hin]; [now left | right; auto].
Qed.

Lemma fold_max_spec (l : list score) (a : score) :
  let r := fold_left py_max l a in
  score_le a r /\ (forall y, In y l -> score_le y r) /\ (r = a \/ In r l).
Proof.
  revert a; induction l as [|x l IH]; intros a; cbn.
  - repeat split; [ScoreTac.order | intros y [] | now left].
  - destruct (IH (py_max a x)) as (H1 & H2 & H3).
    set (r := fold_left py_max l (py_max a x)) in *. repeat split.
    + revert H1; clear; intros; score_solve.
    + intros y [<- | Hy]; [revert H1; clear; intros; score_solve | auto].
    + destruct H3 as [H3 | H3]; [|now right; right].
      rewrite H3. unfold py_max. destruct (score_ltb a x); [right; now left | now left].
Qed.

Lemma full_no_moves (b : Board) :
  is_board_full b = true -> legal_moves b = [].
Proof.
  destruct b as [[a00 a01 a02] [a10 a11 a12] [a20 a21 a22]].
  unfold is_board_full, legal_moves; cbn.
  repeat match goal with |- context [is_none ?c] => destruct c; cbn end;
    intros H; try discriminate H; reflexivity.
Qed.

(** C1: on a board with an empty cell and no completed line,
    [get_best_move] returns (and leaves the session untouched) an empty cell
    [m] such that, every empty cell [c] being scored by [minimax] on the
    board after O plays [c], with X to move and the full window, which is
    the plain minimax value [move_value b c] of that board: no empty cell
    scores more than [m]; every empty cell before [m] in row-major order
    scores strictly less, so [m] is the earliest cell with the maximal
    score; and that score is the plain minimax value of [b] with O to move,
    so [m] is optimal for O. *)
Theorem get_best_move_first_optimal (fuel : nat) (s : session) (b : Board) :
  board s = Some b ->
  legal_moves b <> [] ->
  check_winner_on_board b = None ->
  (count_empty b <= fuel)%nat ->
  exists m,
    get_best_move fuel s = Some (m, s) /\
    In m (legal_moves b) /\
    (forall c, In c (legal_moves b) ->
       minimax fuel (apply_move b c O) 0 false NegInf PosInf =
       Some (move_value b c, apply_move b c O)) /\
    (forall c, In c (legal_moves b) -> score_le (move_value b c) (move_value b m)) /\
    (forall c, In c (legal_moves b) -> (scan_index c < scan_index m)%nat ->
       score_lt (move_value b c) (move_value b m)) /\
    move_value b m = plain_minimax b true.
Proof.
  intros Hb Hne Hw Hf. exists (chosen_move b).
  split; [now apply get_best_move_scan|].
  unfold chosen_move.
  destruct (best_fold_spec b cells (Best b NegInf (i0, i0)) eq_refl)
    as [[_ Hl] | (l1 & l2 & E & Hg & Hs & _ & H1 & H2)]; cbn [best_score] in *.
  { (* some empty cell has a finite value, which beats -inf *)
    destruct (legal_moves b) as [|c l] eqn:L; [now elim Hne|].
    assert (Hc : In c (legal_moves b)) by (rewrite L; now left).
    apply in_legal_moves in Hc.
    specialize (Hl c (in_cells c) Hc).
    destruct (move_value_fin b c) as [z Hz]. rewrite Hz in Hl. discriminate Hl. }
  set (r := fold_left best_step cells (Best b NegInf (i0, i0))) in *.
  set (m := best_move r) in *. rewrite Hs in H1, H2.
  assert (Hle : forall c, In c (legal_moves b) ->
                          score_le (move_value b c) (move_value b m)).
  { intros c Hc. apply in_legal_moves in Hc.
    pose proof (in_cells c) as Hin. rewrite E in Hin.
    apply in_app_or in Hin as [Hin | [<- | Hin]].
    - specialize (H1 c Hin Hc). ScoreTac.order.
    - ScoreTac.order.
    - now apply H2. }
  assert (Hm : In m (legal_moves b)) by now apply in_legal_moves.
  repeat split.
  - exact Hm.
  - intros c Hc. unfold move_value. apply minimax_full_window.
    pose proof (count_empty_apply b c O Hc). lia.
  - exact Hle.
  - intros c Hc Hlt. apply in_legal_moves in Hc.
    apply H1; [|exact Hc]. now apply (cells_split l1 l2 m E).
  - rewrite plain_minimax_eq.
    assert (Ev : evaluate b = InProgress).
    { apply evaluate_in_progress. split; [exact Hw|].
      destruct (is_board_full b) eqn:F; [|reflexivity].
      now apply full_no_moves in F. }
    rewrite Ev. fold (move_value b).
    destruct (fold_max_spec (map (move_value b) (legal_moves b)) NegInf)
      as (_ & Hub & Hin).
    set (v := fold_left py_max (map (move_value b) (legal_moves b)) NegInf) in *.
    assert (G1 : score_le (move_value b m) v) by (apply Hub; now apply in_map).
    assert (G2 : score_le v (move_value b m)).
    { destruct Hin as [-> | Hin]; [apply score_le_NegInf|].
      apply in_map_iff in Hin as (c & <- & Hc). now apply Hle. }
    ScoreTac.order.
Qed.

Lemma get_best_move_first_optimal_witness :
  exists m,
    get_best_move 10 threat_session = Some (m, threat_session) /\
    In m (legal_moves top_row_threat) /\
    (forall c, In c (legal_moves top_row_threat) ->
       minimax 10 (apply_move top_row_threat c O) 0 false NegInf PosInf =
       Some (move_value top_row_threat c, apply_move top_row_threat c O)) /\
    (forall c, In c (legal_moves top_row_threat) ->
       score_le (move_value top_row_threat c) (move_value top_row_threat m)) /\
    (forall c, In c (legal_moves top_row_threat) ->
       (scan_index c < scan_index m)%nat ->
       score_lt (move_value top_row_threat c) (move_value top_row_threat m)) /\
    move_value top_row_threat m = plain_minimax top_row_threat true.
Proof.
  apply (get_best_move_first_optimal 10 threat_session top_row_threat).
  - reflexivity.
  - vm_compute. discriminate.
  - reflexivity.
  - vm_compute. lia.
Defined.

(** C2: called with [alpha = -inf] and [beta = +inf], [minimax] returns
    exactly the value of the plain, unpruned minimax recursion on the same
    board (and hands the board back as it was): the cutoffs change the work
    done, never the value. *)
Theorem minimax_pruning_preserves_value
  (fuel : nat) (b : Board) (depth : Z) (is_maximizing : bool) :
  (count_empty b < fuel)%nat ->
  minimax fuel b depth is_maximizing NegInf PosInf =
  Some (plain_minimax b is_maximizing, b).
Proof. apply minimax_full_window. Qed.

Lemma minimax_pruning_preserves_value_witness :
  minimax 10 top_row_threat 0 true NegInf PosInf =
  Some (plain_minimax top_row_threat true, top_row_threat).
Proof.
  apply (minimax_pruning_preserves_value 10 top_row_threat 0 true).
  vm_compute. lia.
Defined.

(** C5: [minimax], whatever its window, and [get_best_move] leave the board
    exactly as they found it: the call returns, and the board (for
    [get_best_move], the whole session) after it is the one before it. *)
Theorem search_restores_board
  (fuel : nat) (s : session) (b : Board) (depth : Z) (is_maximizing : bool)
  (alpha beta : score) :
  board s = Some b ->
  (count_empty b < fuel)%nat ->
  (exists r, minimax fuel b depth is_maximizing alpha beta = Some (r, b)) /\
  (exists m, get_best_move fuel s = Some (m, s)).
Proof.
  intros Hb Hf. split.
  - destruct (minimax_search_ok fuel b Hf depth is_maximizing alpha beta)
      as (r & E & _).
    now exists r.
  - exists (chosen_move b). apply get_best_move_scan; [exact Hb | lia].
Qed.

Lemma search_restores_board_witness :
  (exists r, minimax 10 top_row_threat 0 false (Fin 0) (Fin 0) =
             Some (r, top_row_threat)) /\
  (exists m, get_best_move 10 threat_session = Some (m, threat_session)).
Proof.
  apply (search_restores_board 10 threat_session top_row_threat 0 false (Fin 0) (Fin 0)).
  - reflexivity.
  - vm_compute. lia.
Defined.

(** C9: with X at (0,0) and (0,1) and every other cell empty,
    [get_best_move] returns the move (0,2). *)
Theorem get_best_move_blocks_top_row (fuel : nat) (s : session) :
  board s = Some top_row_threat ->
  (7 <= fuel)%nat ->
  get_best_move fuel s = Some ((i0, i2), s).
Proof.
  intros Hb Hf.
  rewrite (get_best_move_scan fuel s top_row_threat Hb) by exact Hf.
  replace (chosen_move top_row_threat) with (i0, i2) by (vm_compute; reflexivity).
  reflexivity.
Qed.

Lemma get_best_move_blocks_top_row_witness :
  get_best_move 10 threat_session = Some ((i0, i2), threat_session).
Proof.
  apply (get_best_move_blocks_top_row 10 threat_session).
  - reflexivity.
  - lia.
Defined.

(** ** Outcome *)

Lemma three_in_line_holds (a b c : cell) :
  three_in_line a b c = true <-> exists s, a = Some s /\ b = Some s /\ c = Some s.
Proof.
  unfold three_in_line. split.
  - destruct a as [[|]|], b as [[|]|], c as [[|]|]; cbn; try discriminate;
      intros _; eexists; repeat split.
  - intros (s & -> & -> & ->). now destruct s.
Qed.

Lemma complete_holds (b : Board) (l : line) :
  complete b l = true <-> exists s, holds b l s.
Proof. destruct l as [[p q] r]. apply three_in_line_holds. Qed.

(** [check_winner_on_board] reports the first completed line of [lines]. *)
Lemma check_winner_first_line (b : Board) :
  check_winner_on_board b = first_line b.
Proof.
  unfold check_winner_on_board, first_line, lines, rows, columns, diagonals, complete, cell_at.
  cbn.
  repeat match goal with
         | |- context [three_in_line ?a ?b ?c] => destruct (three_in_line a b c); cbn
         end; reflexivity.
Qed.

Lemma first_line_some (b : Board) (s : player) :
  first_line b = Some s <->
  exists l1 l l2,
    lines = l1 ++ l :: l2 /\ holds b l s /\
    (forall l', In l' l1 -> forall s', ~ holds b l' s').
Proof.
  unfold first_line. generalize lines as ls. intros ls. split.
  - induction ls as [|l ls IH]; cbn; [discriminate|].
    destruct (complete b l) eqn:C.
    + intros H. exists [], l, ls. repeat split; [|intros l' []].
      apply complete_holds in C as (s' & Hs').
      destruct l as [[p q] r]. cbn in *. replace s with s'; [exact Hs'|].
      destruct Hs' as (Hp & _). congruence.
    + intros H. destruct (IH H) as (l1 & l0 & l2 & -> & Hh & Hn).
      exists (l :: l1), l0, l2. repeat split; auto.
      intros l' [<- | Hl'] s' Hs'; [|now apply (Hn l' Hl' s')].
      assert (complete b l = true) by (apply complete_holds; eauto). congruence.
  - intros (l1 & l & l2 & -> & Hh & Hn).
    induction l1 as [|l0 l1 IH]; cbn.
    + assert (C : complete b l = true) by (apply complete_holds; eauto).
      rewrite C. destruct l as [[p q] r]. now destruct Hh.
    + destruct (complete b l0) eqn:C.
      * apply complete_holds in C as (s' & Hs'). now elim (Hn l0 (or_introl eq_refl) s').
      * apply IH. intros l' Hl'. apply Hn. now right.
Qed.

Lemma first_line_none (b : Board) :
  first_line b = None <-> forall s, ~ has_line b s.
Proof.
  split.
  - intros H s (l & Hl & Hh). unfold first_line in H.
    destruct (find (complete b) lines) as [[[p q] r]|] eqn:F.
    + apply find_some in F as [_ F]. apply complete_holds in F as (s' & Hp & _).
      congruence.
    + pose proof (find_none _ _ F l Hl) as C.
      assert (complete b l = true) by (apply complete_holds; eauto). congruence.
  - intros H. destruct (first_line b) as [s|] eqn:F; [|reflexivity].
    apply first_line_some in F as (l1 & l & l2 & E & Hh & _).
    elim (H s). exists l. split; [|exact Hh]. rewrite E. apply in_elt.
Qed.

Lemma evaluate_win (b : Board) (s : player) :
  evaluate b = Win s <-> first_line b = Some s.
Proof.
  rewrite <- check_winner_first_line. unfold evaluate.
  destruct (check_winner_on_board b); [|destruct (is_draw b)];
    split; intros H; try discriminate H; congruence.
Qed.

Lemma first_line_has_line (b : Board) (s : player) :
  first_line b = Some s -> has_line b s.
Proof.
  intros H. apply first_line_some in H as (l1 & l & l2 & E & Hh & _).
  exists l. split; [|exact Hh]. rewrite E. apply in_elt.
Qed.

Lemma no_moves_full (b : Board) : legal_moves b = [] <-> is_board_full b = true.
Proof.
  split; [|apply full_no_moves].
  intros H. destruct (is_board_full b) eqn:F; [reflexivity|].
  now apply not_full_has_move in F.
Qed.

(** The claim C3 as it is worded, "Win(s) exactly when some line holds three
    [s]", fails on a board where both sides have a completed line: the top
    row of X is found first and hides the middle row of O. *)
Lemma evaluate_win_not_exact :
  ~ (evaluate two_lines = Win O <-> has_line two_lines O).
Proof.
  intros [_ H].
  assert (L : has_line two_lines O).
  { exists ((i1, i0), (i1, i1), (i1, i2)). split; [|now cbn].
    unfold lines, rows; cbn. tauto. }
  specialize (H L). discriminate H.
Qed.

(** C3, amended: [evaluate] returns [Win s] exactly when the first
    completed line, in the order rows 0-2, columns 0-2, main diagonal,
    anti-diagonal, holds three [s]; so it returns [Win s] only if [s] has a
    completed line, always if [s] is the only side that has one, and some
    [Win] exactly when some line is completed.  Otherwise it returns [Draw]
    exactly when no empty cell remains, and [InProgress] exactly when one
    does; in particular a full board without three in a row is a [Draw]. *)
Theorem evaluate_outcome (b : Board) :
  (forall s,
     evaluate b = Win s <->
     exists l1 l l2,
       lines = l1 ++ l :: l2 /\ holds b l s /\
       (forall l', In l' l1 -> forall s', ~ holds b l' s')) /\
  (forall s, evaluate b = Win s -> has_line b s) /\
  (forall s, has_line b s -> ~ has_line b (other s) -> evaluate b = Win s) /\
  ((exists s, evaluate b = Win s) <-> (exists s, has_line b s)) /\
  (evaluate b = Draw <-> (forall s, ~ has_line b s) /\ legal_moves b = []) /\
  (evaluate b = InProgress <-> (forall s, ~ has_line b s) /\ legal_moves b <> []).
Proof.
  assert (Hsome : forall s, has_line b s -> exists s', first_line b = Some s').
  { intros s Hs. destruct (first_line b) as [s'|] eqn:F; [now exists s'|].
    now elim (proj1 (first_line_none b) F s). }
  repeat split.
  - intros H. now apply first_line_some, evaluate_win.
  - intros H. now apply evaluate_win, first_line_some.
  - intros s H. now apply first_line_has_line, evaluate_win.
  - intros s Hs Ho. apply evaluate_win.
    destruct (Hsome s Hs) as (s' & F). rewrite F. f_equal.
    apply first_line_has_line in F.
    destruct s, s'; cbn in Ho; try reflexivity; now elim Ho.
  - intros (s & H). exists s. now apply first_line_has_line, evaluate_win.
  - intros (s & H). destruct (Hsome s H) as (s' & F). exists s'. now apply evaluate_win.
  - apply first_line_none. rewrite <- check_winner_first_line.
    unfold evaluate in H. destruct (check_winner_on_board b); [discriminate | reflexivity].
  - apply no_moves_full. unfold evaluate, is_draw in H.
    destruct (check_winner_on_board b); [discriminate|].
    destruct (is_board_full b); [reflexivity | discriminate].
  - intros [Hn Hf]. apply first_line_none in Hn. apply no_moves_full in Hf.
    rewrite <- check_winner_first_line in Hn.
    unfold evaluate, is_draw. now rewrite Hn, Hf.
  - apply first_line_none. apply evaluate_in_progress in H as [H _].
    now rewrite <- check_winner_first_line.
  - apply evaluate_in_progress in H as [_ H]. now apply not_full_has_move.
  - intros [Hn Hf]. apply evaluate_in_progress. split.
    + rewrite check_winner_first_line. now apply first_line_none.
    + destruct (is_board_full b) eqn:F; [|reflexivity].
      now apply full_no_moves in F.
Qed.

(** ** Games played by the rules *)

Lemma cell_at_set (b : Board) (i j : idx) (p q : player) (m : move) :
  q <> p -> cell_at (set b i j (Some p)) m = Some q -> cell_at b m = Some q.
Proof.
  intros Hq. unfold cell_at. destruct m as [k l]; cbn.
  destruct (move_eq_dec (i, j) (k, l)) as [E | N].
  - injection E as <- <-. rewrite get_set_same. congruence.
  - now rewrite get_set_other.
Qed.

(** A mark of [p] completes no line of the other side. *)
Lemma has_line_set (b : Board) (i j : idx) (p q : player) :
  q <> p -> has_line (set b i j (Some p)) q -> has_line b q.
Proof.
  intros Hq ([[m1 m2] m3] & Hl & H1 & H2 & H3).
  exists (m1, m2, m3). split; [exact Hl|].
  repeat split; eapply cell_at_set; eauto.
Qed.

Lemma no_line_on_empty_board (s : player) : ~ has_line empty_board s.
Proof.
  intros ([[m1 m2] m3] & _ & H & _). destruct m1 as [[] []]; discriminate H.
Qed.

Lemma board_start_game (m : game_mode) (s : session) :
  board (start_game m s) = Some empty_board.
Proof.
  unfold start_game, clear_window. destruct m; cbn; handler_cases; reflexivity.
Qed.

Lemma board_make_move (row col : idx) (s : session) (b : Board) (bs : grid bool)
  (p : player) :
  board s = Some b -> buttons s = Some bs -> current_player s = Some p ->
  board (make_move row col s) = Some (set b row col (Some p)).
Proof.
  intros Hb Hbs Hp. unfold make_move. rewrite Hb, Hbs, Hp.
  destruct (check_winner_on_board _); [|destruct (is_draw _)];
    unfold disable_all_buttons; cbn; reflexivity.
Qed.

(** C4: in a game played by the rules (marks placed on empty cells by
    [make_move], none once a line is completed), at most one side has a
    completed line. *)
Theorem played_at_most_one_winner (s : session) (b : Board) :
  played s ->
  board s = Some b ->
  ~ (has_line b X /\ has_line b O).
Proof.
  intros Hp. revert b. induction Hp as [m s0 | s b0 row col Hp IH Hb0 Hw He];
    intros b Hb.
  - rewrite board_start_game in Hb. injection Hb as <-.
    intros [H _]. now apply (no_line_on_empty_board X).
  - assert (Hskip : buttons s = None \/ current_player s = None ->
                    make_move row col s = s).
    { unfold make_move. rewrite Hb0. intros [-> | ->]; [reflexivity|].
      now destruct (buttons s). }
    destruct (buttons s) as [bs|] eqn:Hbs; [|rewrite Hskip in Hb; auto].
    destruct (current_player s) as [p|] eqn:Hcp; [|rewrite Hskip in Hb; auto].
    clear Hskip.
    rewrite (board_make_move row col s b0 bs p Hb0 Hbs Hcp) in Hb.
    injection Hb as <-.
    rewrite check_winner_first_line in Hw.
    pose proof (proj1 (first_line_none b0) Hw) as Hn.
    intros [HX HO]. destruct p.
    + apply (Hn O). now apply (has_line_set b0 row col X O).
    + apply (Hn X). now apply (has_line_set b0 row col O X).
Qed.

Lemma played_at_most_one_winner_witness :
  ~ (has_line (set empty_board i1 i1 (Some X)) X /\
     has_line (set empty_board i1 i1 (Some X)) O).
Proof.
  apply (played_at_most_one_winner
           (make_move i1 i1 (start_game PvP init_session))
           (set empty_board i1 i1 (Some X))).
  - apply (played_move (start_game PvP init_session) empty_board i1 i1).
    + apply played_start.
    + reflexivity.
    + reflexivity.
    + reflexivity.
  - reflexivity.
Defined.

(** ** Sessions *)

Lemma game_count_start_game (m : game_mode) (s : session) :
  game_count (start_game m s) = game_count s.
Proof. unfold start_game, clear_window; destruct m; cbn; handler_cases; reflexivity. Qed.

Lemma game_count_make_move (row col : idx) (s : session) :
  game_count (make_move row col s) = game_count s.
Proof.
  unfold make_move, disable_all_buttons; handler_cases; reflexivity.
Qed.

Lemma game_count_handle_click (row col : idx) (s : session) :
  game_count (fst (handle_click row col s)) = game_count s.
Proof.
  unfold handle_click. handler_cases; try reflexivity;
    unfold schedule_computer_move, start_timer; cbn; apply game_count_make_move.
Qed.

Lemma game_count_handle_timeout (s : session) :
  game_count (handle_timeout s) = game_count s.
Proof. unfold handle_timeout; handler_cases; reflexivity. Qed.

Lemma game_count_get_best_move (fuel : nat) (s s' : session) (m : move) :
  get_best_move fuel s = Some (m, s') -> game_count s' = game_count s.
Proof.
  unfold get_best_move. destruct (board s); [|now intros [= _ <-]].
  destruct (for_each _ _ _); cbn; [|discriminate]. now intros [= _ <-].
Qed.

Lemma game_count_computer_move (fuel : nat) (r : draws) (s s' : session) :
  computer_move fuel r s = Some s' -> game_count s' = game_count s.
Proof.
  unfold computer_move. destruct (board s) as [b|]; [|now intros [= <-]].
  destruct (legal_moves b) as [|c0 l0]; [now intros [= <-]|].
  assert (G : forall (o : option (move * session)),
             (forall m s1, o = Some (m, s1) -> game_count s1 = game_count s) ->
             ('(m, s0) <- o ;; Some (start_timer (make_move (fst m) (snd m) s0))) = Some s' ->
             game_count s' = game_count s).
  { intros [[mv s1]|] Ho; cbn; [|discriminate]. intros [= <-].
    cbn. rewrite game_count_make_move. now apply (Ho mv). }
  apply G. intros mv s1.
  destruct (ai_difficulty s); [| destruct (smart r) |];
    try (now intros [= _ <-]); apply game_count_get_best_move.
Qed.

Lemma game_count_fire (fuel : nat) (e : event) (s s' : session) :
  fire fuel e s = Some s' -> game_count s' = game_count s.
Proof.
  destruct e; cbn [fire].
  - intros [= <-]. apply game_count_start_game.
  - intros [= <-]. unfold start_game_with_ai. now rewrite game_count_start_game.
  - intros [= <-]. unfold reset_game, start_game_with_ai.
    destruct (mode s) as [[|]|]; rewrite ?game_count_start_game; reflexivity.
  - intros [= <-]. unfold create_mode_selection, clear_window.
    now destruct (buttons _).
  - destruct (buttons s); [|discriminate]. destruct (get _ _ _); [|discriminate].
    intros [= <-]. apply game_count_handle_click.
  - destruct (timer_id s); [|discriminate]. intros [= <-].
    unfold countdown. destruct (_ <=? 0); [|reflexivity].
    now rewrite game_count_handle_timeout.
  - destruct (ai_pending s); [discriminate|].
    intros H. now apply game_count_computer_move in H.
  - destruct (mode s) as [[|]|]; try discriminate. intros [= <-].
    unfold end_game_draw, disable_all_buttons. now destruct (buttons s).
Qed.

(** No handler ever writes [game_count]: it keeps the value [__init__] gave. *)
Lemma reachable_game_count (s : session) : reachable s -> game_count s = 0.
Proof.
  intros (fuel & es & H).
  assert (G : forall s0, run fuel es s0 = Some s -> game_count s = game_count s0).
  { clear H. induction es as [|e es IH]; intros s0; cbn.
    - now intros [= <-].
    - destruct (fire fuel e s0) as [s1|] eqn:F; cbn; [|discriminate].
      intros H. rewrite (IH s1 H). now apply game_count_fire in F. }
  now rewrite (G _ H).
Qed.

Lemma current_player_start_game (m : game_mode) (s : session) :
  game_count s = 0 -> current_player (start_game m s) = Some X.
Proof.
  intros H. unfold start_game, clear_window.
  destruct m; cbn; [rewrite H; cbn|]; handler_cases; reflexivity.
Qed.

(** C8: in every state the program can be in, starting a new game, in
    either mode, makes X the side to move. *)
Theorem start_game_x_moves_first (s : session) (m : game_mode) :
  reachable s ->
  current_player (start_game m s) = Some X.
Proof. intros H. now apply current_player_start_game, reachable_game_count. Qed.

Lemma start_game_x_moves_first_witness :
  current_player (start_game PvP after_first_move) = Some X.
Proof.
  apply (start_game_x_moves_first after_first_move PvP).
  exists 0%nat, [EvStartPvP; EvClick i0 i0]. vm_compute. reflexivity.
Defined.

(** *** Clicks *)

Lemma handle_click_returns (row col : idx) (s : session) :
  snd (handle_click row col s) = ReturnsNone.
Proof. now destruct (snd (handle_click row col s)). Qed.

(** A click on the occupied cell (0,0) is turned down and hands back
    [None], exactly what the click on the empty cell (1,1), which places a
    mark, hands back. *)
Lemma occupied_click_returns_none :
  rejected i0 i0 after_first_move /\
  handle_click i0 i0 after_first_move = (after_first_move, ReturnsNone) /\
  fst (handle_click i1 i1 after_first_move) <> after_first_move /\
  snd (handle_click i1 i1 after_first_move) = ReturnsNone.
Proof.
  split; [|split; [|split]].
  - exists (set empty_board i0 i0 (Some X)). split; [vm_compute; reflexivity|].
    left. discriminate.
  - vm_compute. reflexivity.
  - intros E. vm_compute in E. discriminate E.
  - apply handle_click_returns.
Qed.

(** The claim C6 as it is worded fails: nothing tells the caller that a
    click was turned down. *)
Lemma rejection_not_signalled : ~ rejection_signalled.
Proof.
  intros H.
  destruct occupied_click_returns_none as (Hr & _ & Ha & _).
  apply (H i0 i0 after_first_move i1 i1 after_first_move Hr Ha).
  now rewrite !handle_click_returns.
Qed.

(** C6, amended: a click on an occupied cell, or a click made while it is
    the computer's turn in player-versus-computer mode, changes nothing:
    the session, and with it the board and the current player, is left as
    it was.  The rejection is silent: the call hands back [None], as every
    call of [handle_click] does. *)
Theorem handle_click_rejects_silently (row col : idx) (s : session) (b : Board) :
  board s = Some b ->
  get b row col <> None \/ computer_to_move s = true ->
  handle_click row col s = (s, ReturnsNone) /\
  (forall row' col' s', snd (handle_click row' col' s') = ReturnsNone).
Proof.
  intros Hb Hr. split; [|intros; apply handle_click_returns].
  unfold handle_click. rewrite Hb.
  destruct (buttons s); [|reflexivity].
  destruct (get b row col) eqn:G; [reflexivity|].
  destruct Hr as [Hr | ->]; [now elim Hr | reflexivity].
Qed.

Lemma handle_click_rejects_silently_witness :
  handle_click i0 i2 threat_session = (threat_session, ReturnsNone) /\
  (forall row' col' s', snd (handle_click row' col' s') = ReturnsNone).
Proof.
  apply (handle_click_rejects_silently i0 i2 threat_session top_row_threat).
  - reflexivity.
  - right. reflexivity.
Defined.

(** *** The computer's move *)

Lemma fold_best_step_occupied (b : Board) (l : list move) (acc : best) :
  b_board acc = b -> legal_moves b = [] -> fold_left best_step l acc = acc.
Proof.
  intros Hb Hn. induction l as [|c l IH]; cbn; [reflexivity|].
  assert (E : best_step acc c = acc); [|now rewrite E].
  unfold best_step. rewrite Hb.
  destruct (get b (fst c) (snd c)) eqn:G; [reflexivity|].
  apply in_legal_moves in G. rewrite Hn in G. now elim G.
Qed.

Lemma chosen_move_full (b : Board) : legal_moves b = [] -> chosen_move b = (i0, i0).
Proof.
  intros H. unfold chosen_move. now rewrite (fold_best_step_occupied b).
Qed.

Lemma chosen_move_legal (b : Board) :
  legal_moves b <> [] -> In (chosen_move b) (legal_moves b).
Proof.
  intros Hne. unfold chosen_move.
  destruct (best_fold_spec b cells (Best b NegInf (i0, i0)) eq_refl)
    as [[_ Hl] | (l1 & l2 & _ & Hg & _)]; cbn [best_score] in *.
  - destruct (legal_moves b) as [|c l] eqn:L; [now elim Hne|].
    assert (Hc : In c (legal_moves b)) by (rewrite L; now left).
    apply in_legal_moves in Hc.
    specialize (Hl c (in_cells c) Hc).
    destruct (move_value_fin b c) as [z Hz]. rewrite Hz in Hl. discriminate Hl.
  - now apply in_legal_moves.
Qed.

Lemma choice_in (r : draws) (l : list move) : l <> [] -> In (choice r l) l.
Proof.
  intros Hne. unfold choice. apply nth_In.
  apply Nat.mod_upper_bound. destruct l; [now elim Hne | discriminate].
Qed.

(** On a board with an empty cell [computer_move] places a mark on an empty
    cell, through [make_move]. *)
Lemma computer_move_plays (fuel : nat) (r : draws) (s : session) (b : Board) :
  board s = Some b ->
  legal_moves b <> [] ->
  (count_empty b <= fuel)%nat ->
  exists m,
    In m (legal_moves b) /\
    computer_move fuel r s = Some (start_timer (make_move (fst m) (snd m) s)).
Proof.
  intros Hb Hne Hf. unfold computer_move. rewrite Hb.
  pose proof (choice_in r (legal_moves b) Hne) as Hc.
  pose proof (chosen_move_legal b Hne) as Hm.
  rewrite (get_best_move_scan fuel s b Hb Hf).
  destruct (legal_moves b) as [|c0 l0] eqn:L; [now elim Hne|].
  destruct (ai_difficulty s); [| destruct (smart r) |]; cbn [obind]; eauto.
Qed.

(** On a full board [computer_move] returns at once. *)
Lemma computer_move_full (fuel : nat) (r : draws) (s : session) (b : Board) :
  board s = Some b -> legal_moves b = [] -> computer_move fuel r s = Some s.
Proof. intros Hb Hn. unfold computer_move. now rewrite Hb, Hn. Qed.

(** After a drawn game, the events of [drawn_trace] bring the program to
    call [computer_move] on the full board; the call hands back the session
    it was given, and [get_best_move] there hands back [(0, 0)]. *)
Lemma drawn_session_falls_back :
  run 10 drawn_trace init_session = Some drawn_session /\
  evaluate drawn_board = Draw /\
  get_best_move 10 drawn_session = Some ((i0, i0), drawn_session) /\
  computer_move 10 (Draws false 0) drawn_session = Some drawn_session.
Proof. split; [|split; [|split]]; vm_compute; reflexivity. Qed.

(** The claim C10 as it is worded fails: on a full board both calls return. *)
Lemma precondition_not_enforced : ~ precondition_enforced.
Proof.
  intros H.
  destruct drawn_session_falls_back as (_ & Hd & Hg & _).
  destruct (H 10%nat (Draws false 0) drawn_session drawn_board eq_refl) as [Hn _].
  - rewrite Hd. discriminate.
  - apply Hn. rewrite Hg. now eexists.
Qed.

(** C10, amended: the search and the computer move are defined on every
    board, decided or not, and never end in an error.  [get_best_move]
    returns and leaves the session as it was; on a full board its result is
    the default [(0, 0)] and [computer_move] returns without placing a mark,
    leaving the session as it was; on a board with an empty cell
    [get_best_move] returns an empty cell and [computer_move] places a mark
    on an empty cell. *)
Theorem search_defined_on_every_board
  (fuel : nat) (r : draws) (s : session) (b : Board) :
  board s = Some b ->
  (count_empty b <= fuel)%nat ->
  get_best_move fuel s = Some (chosen_move b, s) /\
  (legal_moves b = [] ->
   chosen_move b = (i0, i0) /\ computer_move fuel r s = Some s) /\
  (legal_moves b <> [] ->
   In (chosen_move b) (legal_moves b) /\
   exists m, In m (legal_moves b) /\
             computer_move fuel r s = Some (start_timer (make_move (fst m) (snd m) s))).
Proof.
  intros Hb Hf. split; [now apply get_best_move_scan|]. split.
  - intros Hn. split; [now apply chosen_move_full | now apply (computer_move_full _ _ _ b)].
  - intros Hne. split; [now apply chosen_move_legal | now apply computer_move_plays].
Qed.

Lemma search_defined_on_every_board_witness :
  get_best_move 10 drawn_session = Some (chosen_move drawn_board, drawn_session) /\
  (legal_moves drawn_board = [] ->
   chosen_move drawn_board = (i0, i0) /\
   computer_move 10 (Draws false 0) drawn_session = Some drawn_session) /\
  (legal_moves drawn_board <> [] ->
   In (chosen_move drawn_board) (legal_moves drawn_board) /\
   exists m, In m (legal_moves drawn_board) /\
             computer_move 10 (Draws false 0) drawn_session =
             Some (start_timer (make_move (fst m) (snd m) drawn_session))).
Proof.
  apply (search_defined_on_every_board 10 (Draws false 0) drawn_session drawn_board).
  - reflexivity.
  - vm_compute. lia.
Defined.

(** *** Marks on the board *)

(** A mark on an empty cell moves the balance by one, up for X and down
    for O. *)
Lemma balance_set (b : Board) (i j : idx) (p : player) :
  get b i j = None ->
  balance (set b i j (Some p)) = balance b + match p with X => 1 | O => -1 end.
Proof.
  destruct b as [[a00 a01 a02] [a10 a11 a12] [a20 a21 a22]].
  unfold balance, count_marks, cell_at.
  destruct i, j; cbn [cells list_prod range3 map app fold_right get set nth3 upd3
                      fst snd t0 t1 t2];
    intros ->; destruct p;
    change (indicator X (Some X)) with 1; change (indicator O (Some X)) with 0;
    change (indicator X (Some O)) with 0; change (indicator O (Some O)) with 1;
    change (indicator X None) with 0; change (indicator O None) with 0;
    lia.
Qed.

Lemma balance_empty_board : balance empty_board = 0.
Proof. reflexivity. Qed.

(** With O letting the clock run out in a player-versus-player game, X
    places two marks in a row. *)
Lemma timeout_gives_two_marks :
  exists s,
    run 10 timeout_trace init_session = Some s /\
    board s = Some top_row_threat /\
    balance top_row_threat = 2.
Proof.
  eexists. split; [vm_compute; reflexivity|]. split; reflexivity.
Qed.

(** The claim C7 as it is worded fails: a turn timeout passes the turn
    without a mark, and the balance leaves {0, 1}. *)
Lemma timeout_breaks_balance : ~ balance_invariant.
Proof.
  intros H. destruct timeout_gives_two_marks as (s & Hr & Hb & Hbal).
  assert (R : reachable s) by (now exists 10%nat, timeout_trace).
  specialize (H s top_row_threat R Hb). lia.
Qed.

Lemma turn_invariant_ext (s s' : session) :
  board s' = board s -> current_player s' = current_player s ->
  turn_invariant s -> turn_invariant s'.
Proof. unfold turn_invariant. intros -> ->. auto. Qed.

(** [make_move] on an empty cell of a game in progress keeps the turns. *)
Lemma make_move_turn (row col : idx) (s : session) (b : Board) :
  turn_invariant s ->
  board s = Some b -> evaluate b = InProgress -> get b row col = None ->
  turn_invariant (make_move row col s).
Proof.
  intros Hinv Hb Hev Hg.
  destruct (Hinv b Hb) as [Hbal Hturn].
  destruct (Hturn Hev) as (p & Hp & Hbp).
  unfold make_move. rewrite Hb, Hp.
  destruct (buttons s) as [bs|]; [|exact Hinv].
  pose proof (balance_set b row col p Hg) as Hset.
  intros b'. unfold evaluate.
  destruct (check_winner_on_board (set b row col (Some p))) eqn:W;
    [|destruct (is_draw (set b row col (Some p))) eqn:D];
    unfold disable_all_buttons; cbn; intros [= <-];
    (split; [destruct p; lia|]); rewrite W, ?D; try discriminate.
  intros _. exists (other p). split; [reflexivity|]. destruct p; cbn; lia.
Qed.

Lemma in_play_turn (s : session) : in_play s -> turn_invariant s.
Proof.
  intros Hplay.
  induction Hplay as [m s0 Hr | t b0 row col Hp IH Hb0 Hev
                      | t t' b0 fuel r Hp IH Hb0 Hev Hf Hc].
  - intros b Hb. rewrite board_start_game in Hb. injection Hb as <-.
    rewrite balance_empty_board. split; [lia|]. intros _. exists X.
    split; [|reflexivity].
    now apply current_player_start_game, reachable_game_count.
  - unfold handle_click. rewrite Hb0.
    destruct (buttons t) as [bs|] eqn:Hbs; [|exact IH].
    destruct (get b0 row col) eqn:G; [exact IH|].
    destruct (computer_to_move t); [exact IH|].
    cbn [fst].
    apply (turn_invariant_ext (make_move row col t));
      [now destruct (computer_to_move _) | now destruct (computer_to_move _) |].
    now apply (make_move_turn row col t b0).
  - assert (Hne : legal_moves b0 <> []).
    { apply evaluate_in_progress in Hev as [_ Hev]. now apply not_full_has_move. }
    destruct (computer_move_plays fuel r t b0 Hb0 Hne Hf) as (m & Hm & E).
    rewrite E in Hc. injection Hc as <-.
    apply in_legal_moves in Hm.
    apply (turn_invariant_ext (make_move (fst m) (snd m) t)); [reflexivity..|].
    now apply (make_move_turn _ _ t b0).
Qed.

(** C7, amended: in every state of a game whose marks are placed while the
    game is in progress, by human clicks and computer moves from a newly
    started game, the count of X cells minus the count of O cells is 0 or 1.
    Turn timeouts are left out: they pass the turn without a mark. *)
Theorem in_play_balance (s : session) (b : Board) :
  in_play s ->
  board s = Some b ->
  0 <= balance b <= 1.
Proof. intros Hp Hb. now apply (in_play_turn s Hp b Hb). Qed.

Lemma in_play_balance_witness :
  0 <= balance (set empty_board i0 i0 (Some X)) <= 1.
Proof.
  apply (in_play_balance after_first_move (set empty_board i0 i0 (Some X))).
  - apply (in_play_click (start_game PvP init_session) empty_board i0 i0).
    + apply in_play_start. exists 0%nat, []. reflexivity.
    + reflexivity.
    + reflexivity.
  - vm_compute. reflexivity.
Defined.

(** * Further properties *)

(** ** Range of the search *)

Lemma unit_score_max (e r : score) :
  e = NegInf \/ unit_score e -> unit_score r -> unit_score (py_max e r).
Proof.
  intros [-> | (x & -> & Hx)] (y & -> & Hy); unfold py_max; cbn.
  - now exists y.
  - destruct (x <? y); [now exists y | now exists x].
Qed.

Lemma unit_score_min (e r : score) :
  e = PosInf \/ unit_score e -> unit_score r -> unit_score (py_min e r).
Proof.
  intros [-> | (x & -> & Hx)] (y & -> & Hy); unfold py_min; cbn.
  - now exists y.
  - destruct (y <? x); [now exists y | now exists x].
Qed.

Section MaxRange.

Variables (rec : search) (depth : Z).
Hypothesis Hrec : search_partial rec.

Lemma max_body_range (i j : idx) (st st' : frame) (fl : flow) :
  max_body rec depth i j st = Some (st', fl) ->
  f_eval st = NegInf \/ unit_score (f_eval st) ->
  f_board st' = f_board st /\
  (unit_score (f_eval st') \/
   (st' = st /\ fl = Next /\ get (f_board st) i j <> None)).
Proof.
  unfold max_body. destruct (get (f_board st) i j) eqn:G.
  - intros [= <- <-] _. split; [reflexivity|]. right. now repeat split.
  - cbv zeta. destruct (rec _ _ _ _ _) as [[r b2]|] eqn:E; cbn; [|discriminate].
    intros [= <- <-] He. cbn.
    destruct (Hrec _ _ _ _ _ _ _ E) as [-> Hr].
    split; [now apply set_undo|]. left. now apply unit_score_max.
Qed.

Lemma max_inner_range (i : idx) (l : list idx) (st st' : frame) :
  for_break l (max_body rec depth i) st = Some st' ->
  f_eval st = NegInf \/ unit_score (f_eval st) ->
  f_board st' = f_board st /\
  (unit_score (f_eval st') \/
   (f_eval st' = f_eval st /\ forall j, In j l -> get (f_board st) i j <> None)).
Proof.
  revert st; induction l as [|j l IH]; intros st; cbn.
  - intros [= <-] _. split; [reflexivity|]. right. split; [reflexivity | intros j []].
  - destruct (max_body rec depth i j st) as [[st1 fl]|] eqn:E; cbn; [|discriminate].
    intros H He.
    destruct (max_body_range i j st st1 fl E He) as [Hb [Hu | (-> & -> & Hg)]].
    + destruct fl.
      * destruct (IH st1 H (or_intror Hu)) as [Hb' [Hu' | [Hu' _]]].
        -- split; [congruence | now left].
        -- split; [congruence | left; now rewrite Hu'].
      * injection H as <-. split; [exact Hb | now left].
    + destruct (IH st H He) as [Hb' [Hu' | [Hu' Hl]]].
      * split; [exact Hb' | now left].
      * split; [exact Hb'|]. right. split; [exact Hu'|].
        intros j' [<- | Hj]; auto.
Qed.

Lemma max_outer_range (l : list idx) (st st' : frame) :
  for_each l (fun i => for_break range3 (max_body rec depth i)) st = Some st' ->
  f_eval st = NegInf \/ unit_score (f_eval st) ->
  f_board st' = f_board st /\
  (unit_score (f_eval st') \/
   (f_eval st' = f_eval st /\
    forall i, In i l -> forall j, In j range3 -> get (f_board st) i j <> None)).
Proof.
  revert st; induction l as [|i l IH]; intros st; cbn [for_each].
  - intros [= <-] _. split; [reflexivity|]. right. split; [reflexivity | intros i []].
  - destruct (for_break range3 (max_body rec depth i) st) as [st1|] eqn:E; cbn [obind];
      [|discriminate].
    intros H He.
    destruct (max_inner_range i range3 st st1 E He) as [Hb [Hu | [Hu Hl]]].
    + destruct (IH st1 H (or_intror Hu)) as [Hb' [Hu' | [Hu' _]]].
      * split; [congruence | now left].
      * split; [congruence | left; now rewrite Hu'].
    + assert (He1 : f_eval st1 = NegInf \/ unit_score (f_eval st1)) by now rewrite Hu.
      destruct (IH st1 H He1) as [Hb' [Hu' | [Hu' Hl']]].
      * split; [congruence | now left].
      * split; [congruence|]. right. split; [congruence|].
        intros i' [<- | Hi]; [exact Hl|]. rewrite <- Hb. now apply Hl'.
Qed.

End MaxRange.

Section MinRange.

Variables (rec : search) (depth : Z).
Hypothesis Hrec : search_partial rec.

Lemma min_body_range (i j : idx) (st st' : frame) (fl : flow) :
  min_body rec depth i j st = Some (st', fl) ->
  f_eval st = PosInf \/ unit_score (f_eval st) ->
  f_board st' = f_board st /\
  (unit_score (f_eval st') \/
   (st' = st /\ fl = Next /\ get (f_board st) i j <> None)).
Proof.
  unfold min_body. destruct (get (f_board st) i j) eqn:G.
  - intros [= <- <-] _. split; [reflexivity|]. right. now repeat split.
  - cbv zeta. destruct (rec _ _ _ _ _) as [[r b2]|] eqn:E; cbn; [|discriminate].
    intros [= <- <-] He. cbn.
    destruct (Hrec _ _ _ _ _ _ _ E) as [-> Hr].
    split; [now apply set_undo|]. left. now apply unit_score_min.
Qed.

Lemma min_inner_range (i : idx) (l : list idx) (st st' : frame) :
  for_break l (min_body rec depth i) st = Some st' ->
  f_eval st = PosInf \/ unit_score (f_eval st) ->
  f_board st' = f_board st /\
  (unit_score (f_eval st') \/
   (f_eval st' = f_eval st /\ forall j, In j l -> get (f_board st) i j <> None)).
Proof.
  revert st; induction l as [|j l IH]; intros st; cbn.
  - intros [= <-] _. split; [reflexivity|]. right. split; [reflexivity | intros j []].
  - destruct (min_body rec depth i j st) as [[st1 fl]|] eqn:E; cbn; [|discriminate].
    intros H He.
    destruct (min_body_range i j st st1 fl E He) as [Hb [Hu | (-> & -> & Hg)]].
    + destruct fl.
      * destruct (IH st1 H (or_intror Hu)) as [Hb' [Hu' | [Hu' _]]].
        -- split; [congruence | now left].
        -- split; [congruence | left; now rewrite Hu'].
      * injection H as <-. split; [exact Hb | now left].
    + destruct (IH st H He) as [Hb' [Hu' | [Hu' Hl]]].
      * split; [exact Hb' | now left].
      * split; [exact Hb'|]. right. split; [exact Hu'|].
        intros j' [<- | Hj]; auto.
Qed.

Lemma min_outer_range (l : list idx) (st st' : frame) :
  for_each l (fun i => for_break range3 (min_body rec depth i)) st = Some st' ->
  f_eval st = PosInf \/ unit_score (f_eval st) ->
  f_board st' = f_board st /\
  (unit_score (f_eval st') \/
   (f_eval st' = f_eval st /\
    forall i, In i l -> forall j, In j range3 -> get (f_board st) i j <> None)).
Proof.
  revert st; induction l as [|i l IH]; intros st; cbn [for_each].
  - intros [= <-] _. split; [reflexivity|]. right. split; [reflexivity | intros i []].
  - destruct (for_break range3 (min_body rec depth i) st) as [st1|] eqn:E; cbn [obind];
      [|discriminate].
    intros H He.
    destruct (min_inner_range i range3 st st1 E He) as [Hb [Hu | [Hu Hl]]].
    + destruct (IH st1 H (or_intror Hu)) as [Hb' [Hu' | [Hu' _]]].
      * split; [congruence | now left].
      * split; [congruence | left; now rewrite Hu'].
    + assert (He1 : f_eval st1 = PosInf \/ unit_score (f_eval st1)) by now rewrite Hu.
      destruct (IH st1 H He1) as [Hb' [Hu' | [Hu' Hl']]].
      * split; [congruence | now left].
      * split; [congruence|]. right. split; [congruence|].
        intros i' [<- | Hi]; [exact Hl|]. rewrite <- Hb. now apply Hl'.
Qed.

End MinRange.

Lemma all_occupied_full (b : Board) :
  (forall i, In i range3 -> forall j, In j range3 -> get b i j <> None) ->
  is_board_full b = true.
Proof.
  intros H. unfold is_board_full.
  apply forallb_forall. intros i Hi. apply forallb_forall. intros j Hj.
  specialize (H i Hi j Hj). now destruct (get b i j).
Qed.

(** Whatever the fuel and the window, a call of [minimax] that returns
    hands the board back as it was and returns [-1], [0] or [1]. *)
Lemma minimax_partial (fuel : nat) : search_partial (minimax fuel).
Proof.
  induction fuel as [|fuel IH]; intros b depth mx alpha beta r b'; [discriminate|].
  cbn [minimax].
  destruct (check_winner_on_board b) as [[|]|].
  - intros [= <- <-]. split; [reflexivity|]. exists (-1). split; [reflexivity | lia].
  - intros [= <- <-]. split; [reflexivity|]. exists 1. split; [reflexivity | lia].
  - destruct (is_board_full b) eqn:F.
    + intros [= <- <-]. split; [reflexivity|]. exists 0. split; [reflexivity | lia].
    + destruct mx.
      * destruct (for_each _ _ _) as [st'|] eqn:E; cbn [obind]; [|discriminate].
        intros [= <- <-].
        destruct (max_outer_range (minimax fuel) depth IH range3 _ st' E (or_introl eq_refl))
          as [Hb [Hu | [_ Hocc]]]; cbn [f_board f_eval] in *.
        -- now split.
        -- apply all_occupied_full in Hocc. congruence.
      * destruct (for_each _ _ _) as [st'|] eqn:E; cbn [obind]; [|discriminate].
        intros [= <- <-].
        destruct (min_outer_range (minimax fuel) depth IH range3 _ st' E (or_introl eq_refl))
          as [Hb [Hu | [_ Hocc]]]; cbn [f_board f_eval] in *.
        -- now split.
        -- apply all_occupied_full in Hocc. congruence.
Qed.

(** X1: with more fuel than empty cells and a window [alpha < beta],
    [minimax] returns, hands the board back, and its result [r] is exact
    when the plain minimax value [v] lies inside the window, at most [alpha]
    when [v <= alpha], and at least [beta] when [v >= beta]. *)
Theorem minimax_window_sound
  (fuel : nat) (b : Board) (depth : Z) (is_maximizing : bool) (alpha beta : score) :
  (count_empty b < fuel)%nat ->
  score_lt alpha beta ->
  exists r,
    minimax fuel b depth is_maximizing alpha beta = Some (r, b) /\
    (score_le (plain_minimax b is_maximizing) alpha -> score_le r alpha) /\
    (score_lt alpha (plain_minimax b is_maximizing) ->
     score_lt (plain_minimax b is_maximizing) beta ->
     r = plain_minimax b is_maximizing) /\
    (score_le beta (plain_minimax b is_maximizing) -> score_le beta r).
Proof.
  intros Hf Hab.
  destruct (minimax_search_ok fuel b Hf depth is_maximizing alpha beta) as (r & E & Hb).
  exists r. split; [exact E | exact (Hb Hab)].
Qed.

Lemma minimax_window_sound_witness :
  exists r,
    minimax 10 top_row_threat 0 true (Fin (-1)) (Fin 0) = Some (r, top_row_threat) /\
    (score_le (plain_minimax top_row_threat true) (Fin (-1)) -> score_le r (Fin (-1))) /\
    (score_lt (Fin (-1)) (plain_minimax top_row_threat true) ->
     score_lt (plain_minimax top_row_threat true) (Fin 0) ->
     r = plain_minimax top_row_threat true) /\
    (score_le (Fin 0) (plain_minimax top_row_threat true) -> score_le (Fin 0) r).
Proof.
  apply (minimax_window_sound 10 top_row_threat 0 true (Fin (-1)) (Fin 0)).
  - vm_compute. lia.
  - reflexivity.
Defined.

(** X2: whatever the window, even an empty one, [minimax] returns one of
    [-1], [0], [1], never an infinity. *)
Theorem minimax_returns_game_score
  (fuel : nat) (b : Board) (depth : Z) (is_maximizing : bool) (alpha beta : score) :
  (count_empty b < fuel)%nat ->
  exists z,
    minimax fuel b depth is_maximizing alpha beta = Some (Fin z, b) /\
    -1 <= z <= 1.
Proof.
  intros Hf.
  destruct (minimax_search_ok fuel b Hf depth is_maximizing alpha beta) as (r & E & _).
  destruct (minimax_partial fuel _ _ _ _ _ _ _ E) as [_ (z & -> & Hz)].
  now exists z.
Qed.

Lemma minimax_returns_game_score_witness :
  exists z,
    minimax 10 top_row_threat 0 false PosInf NegInf = Some (Fin z, top_row_threat) /\
    -1 <= z <= 1.
Proof.
  apply (minimax_returns_game_score 10 top_row_threat 0 false PosInf NegInf).
  vm_compute. lia.
Defined.

(** ** The scan of [get_best_move], whatever the fuel *)

Lemma best_body_partial (fuel : nat) (b : Board) (done : list move) (i j : idx)
  (st st' : best) :
  best_inv b done st ->
  best_body fuel i j st = Some st' ->
  best_inv b (done ++ [(i, j)]) st'.
Proof.
  intros [Hb Hi]. unfold best_body. rewrite Hb.
  destruct (get b i j) eqn:G.
  - intros [= <-]. split; [exact Hb|].
    destruct Hi as [(H1 & H2 & H3) | H]; [left | now right].
    repeat split; auto. intros c Hc. apply in_app_or in Hc as [Hc | [<- | []]]; auto.
    unfold cell_at; cbn. congruence.
  - cbv zeta. destruct (minimax _ _ _ _ _ _) as [[r b2]|] eqn:E; cbn [obind]; [|discriminate].
    destruct (minimax_partial fuel _ _ _ _ _ _ _ E) as [-> Hr].
    rewrite (set_undo b i j _ G).
    destruct (score_ltb (best_score st) r) eqn:C; intros [= <-]; (split; [reflexivity|]).
    + right. now split.
    + right. destruct Hi as [(H1 & _) | H]; [|exact H].
      rewrite H1 in C. destruct Hr as (z & -> & _). discriminate C.
Qed.

Lemma best_scan_partial (fuel : nat) (b : Board) (l done : list move) (st st' : best) :
  best_inv b done st ->
  for_each l (fun c => best_body fuel (fst c) (snd c)) st = Some st' ->
  best_inv b (done ++ l) st'.
Proof.
  revert done st; induction l as [|[i j] l IH]; intros done st Hi; cbn [for_each].
  - intros [= <-]. now rewrite app_nil_r.
  - destruct (best_body fuel _ _ st) as [st1|] eqn:E; cbn [obind]; [|discriminate].
    intros H. cbn [fst snd] in E.
    pose proof (best_body_partial fuel b done i j st st1 Hi E) as Hi1.
    specialize (IH _ _ Hi1 H). now rewrite <- app_assoc in IH.
Qed.

(** Whenever [get_best_move] returns, the session is as it was, and the
    move is an empty cell if the board has one, [(0, 0)] otherwise. *)
Lemma get_best_move_partial (fuel : nat) (s s' : session) (m : move) :
  get_best_move fuel s = Some (m, s') ->
  s' = s /\
  forall b, board s = Some b ->
    (legal_moves b <> [] -> In m (legal_moves b)) /\
    (legal_moves b = [] -> m = (i0, i0)).
Proof.
  unfold get_best_move. destruct (board s) as [b|] eqn:Hb.
  - rewrite (for_each_nested range3 range3 (best_body fuel) (Best b NegInf (i0, i0))).
    fold cells.
    match goal with
    | |- context [obind ?x _] => destruct x as [st|] eqn:E; cbn [obind]
    end; [|discriminate].
    intros [= <- <-].
    assert (Hi : best_inv b [] (Best b NegInf (i0, i0))).
    { split; [reflexivity|]. left. repeat split. intros c []. }
    pose proof (best_scan_partial fuel b cells [] _ st Hi E) as [Hbs Hi'].
    cbn [app] in Hi'. rewrite Hbs. split; [now apply set_board_same|].
    intros b0 [= <-]. split.
    + intros Hne. apply in_legal_moves.
      destruct Hi' as [(_ & _ & Hocc) | [_ H]]; [|exact H].
      destruct (legal_moves b) as [|c l] eqn:L; [now elim Hne|].
      assert (Hc : In c (legal_moves b)) by (rewrite L; now left).
      apply in_legal_moves in Hc. now elim (Hocc c (in_cells c)).
    + intros Hn. destruct Hi' as [(_ & H & _) | [_ H]]; [exact H|].
      assert (Hc : In (best_move st) (legal_moves b)) by now apply in_legal_moves.
      rewrite Hn in Hc. now elim Hc.
  - intros [= <- <-]. split; [reflexivity|]. intros b0 Hb0. discriminate Hb0.
Qed.

(** ** What a move does to a session *)

Lemma make_move_skips (row col : idx) (s : session) :
  buttons s = None \/ current_player s = None -> make_move row col s = s.
Proof.
  unfold make_move. destruct (board s); [|reflexivity].
  intros [-> | ->]; [reflexivity|]. now destruct (buttons s).
Qed.

(** [make_move] writes the symbol of the side to move into the cell,
    disables its button, and passes the turn exactly when the game goes on. *)
Lemma make_move_result (row col : idx) (s : session) (b : Board) (bs : grid bool)
  (p : player) :
  board s = Some b -> buttons s = Some bs -> current_player s = Some p ->
  board (make_move row col s) = Some (set b row col (Some p)) /\
  current_player (make_move row col s) =
    Some (match evaluate (set b row col (Some p)) with
          | InProgress => other p
          | _ => p
          end) /\
  buttons (make_move row col s) =
    Some (match evaluate (set b row col (Some p)) with
          | InProgress => set bs row col false
          | _ => full_grid false
          end) /\
  mode (make_move row col s) = mode s /\
  ai_difficulty (make_move row col s) = ai_difficulty s /\
  ai_pending (make_move row col s) = ai_pending s.
Proof.
  intros Hb Hbs Hp. unfold make_move, evaluate. rewrite Hb, Hbs, Hp.
  destruct (check_winner_on_board _); [|destruct (is_draw _)];
    unfold disable_all_buttons; cbn; now rewrite ?Hp.
Qed.

Lemma coherent_same (s s' : session) :
  board s' = board s -> buttons s' = buttons s ->
  current_player s' = current_player s -> mode s' = mode s ->
  coherent s -> coherent s'.
Proof. unfold coherent. now intros -> -> -> ->. Qed.

Lemma coherent_make_move (row col : idx) (s : session) :
  coherent s -> coherent (make_move row col s).
Proof.
  intros H. unfold coherent in H.
  destruct (board s) as [b|] eqn:Hb.
  - destruct H as (bs & p & m & Hbs & Hp & Hm & Hen & Hover).
    destruct (make_move_result row col s b bs p Hb Hbs Hp)
      as (Eb & Ep & Ebs & Em & _).
    unfold coherent. rewrite Eb. eexists _, _, m.
    split; [exact Ebs|]. split; [exact Ep|]. split; [congruence|].
    destruct (evaluate (set b row col (Some p))) eqn:Ev.
    + split; [|intros Hn; now elim Hn].
      intros r c Hrc.
      destruct (move_eq_dec (row, col) (r, c)) as [E | N].
      * injection E as <- <-. rewrite get_set_same in Hrc. discriminate Hrc.
      * rewrite get_set_other in Hrc by exact N. rewrite get_set_other by exact N. auto.
    + split; [|reflexivity]. intros r c Hrc. destruct r, c; discriminate Hrc.
    + split; [|reflexivity]. intros r c Hrc. destruct r, c; discriminate Hrc.
  - unfold make_move. rewrite Hb. unfold coherent. now rewrite Hb.
Qed.

Lemma coherent_disabled (s : session) :
  coherent s -> coherent (disable_all_buttons s).
Proof.
  unfold coherent, disable_all_buttons.
  destruct (buttons s) as [bs|] eqn:Hbs; cbn; [|now rewrite Hbs].
  destruct (board s) as [b|]; [|now intros [H _]].
  intros (bs' & p & m & _ & Hp & Hm & _).
  eexists _, p, m. repeat split; auto.
  intros r c Hrc. destruct r, c; discriminate Hrc.
Qed.

Lemma coherent_start_game (m : game_mode) (s : session) : coherent (start_game m s).
Proof.
  unfold coherent. rewrite board_start_game.
  assert (Hbs : buttons (start_game m s) = Some (full_grid true))
    by (unfold start_game, clear_window; destruct m; cbn; handler_cases; reflexivity).
  assert (Hp : exists p, current_player (start_game m s) = Some p)
    by (unfold start_game, clear_window; destruct m; cbn; handler_cases; eauto).
  assert (Hm : mode (start_game m s) = Some m)
    by (unfold start_game, clear_window; destruct m; cbn; handler_cases; reflexivity).
  destruct Hp as (p & Hp). exists (full_grid true), p, m.
  repeat split; auto.
  - intros r c _. now destruct r, c.
  - intros H. now elim H.
Qed.

Lemma coherent_fire (fuel : nat) (e : event) (s s' : session) :
  fire fuel e s = Some s' -> coherent s -> coherent s'.
Proof.
  destruct e; cbn [fire].
  - intros [= <-] _. apply coherent_start_game.
  - intros [= <-] _. apply coherent_start_game.
  - intros [= <-] H. unfold reset_game.
    destruct (mode s) as [[|]|]; [apply coherent_start_game.. | exact H].
  - intros [= <-] H. unfold create_mode_selection, clear_window.
    apply (coherent_disabled (stop_timer s)).
    now apply (coherent_same s).
  - destruct (buttons s) as [bs|] eqn:Hbs; [|discriminate].
    destruct (get bs row col); [|discriminate].
    intros [= <-] H. unfold handle_click. rewrite Hbs.
    destruct (board s) as [b|] eqn:Hb; [|exact H].
    destruct (get b row col); [exact H|].
    destruct (computer_to_move s); [exact H|]. cbn [fst].
    apply (coherent_same (make_move row col s));
      try (now destruct (computer_to_move _)).
    now apply coherent_make_move.
  - destruct (timer_id s); [|discriminate]. intros [= <-] H.
    unfold countdown.
    destruct (_ <=? 0); [|now apply (coherent_same s)].
    unfold handle_timeout. cbn.
    unfold coherent in H.
    destruct (board s) as [b|] eqn:Hb; [|now unfold coherent; cbn; rewrite Hb].
    destruct H as (bs & p & m & Hbs & Hp & Hm & Hen & Hover). rewrite Hp.
    match goal with
    | |- coherent (if ?c then _ else _) => destruct c
    end.
    + unfold coherent; cbn. rewrite Hb. now exists bs, p, m.
    + match goal with
      | |- coherent (if ?c then _ else _) => destruct c
      end; unfold coherent; cbn; rewrite Hb; now exists bs, (other p), m.
  - destruct (ai_pending s) as [|n]; [discriminate|].
    intros Hc H.
    assert (H0 : coherent (set_ai_pending s n)) by now apply (coherent_same s).
    revert Hc. generalize dependent (set_ai_pending s n). clear. intros t Ht.
    unfold computer_move. destruct (board t) as [b|]; [|now intros [= <-]].
    destruct (legal_moves b) as [|c0 l0]; [now intros [= <-]|].
    assert (G : forall o : option (move * session),
               (forall mv t1, o = Some (mv, t1) -> t1 = t) ->
               ('(mv, t0) <- o ;; Some (start_timer (make_move (fst mv) (snd mv) t0))) = Some s' ->
               coherent s').
    { intros [[mv t1]|] Ho; cbn; [|discriminate]. intros [= <-].
      rewrite (Ho mv t1 eq_refl).
      apply (coherent_same (make_move (fst mv) (snd mv) t)); try reflexivity.
      now apply coherent_make_move. }
    apply G. intros mv t1.
    destruct (ai_difficulty t); [| destruct (smart r) |];
      try (now intros [= _ <-]); intros Hg; now apply get_best_move_partial in Hg.
  - destruct (mode s) as [[|]|]; try discriminate. intros [= <-] H.
    unfold end_game_draw.
    apply (coherent_same (disable_all_buttons s)); try reflexivity.
    now apply coherent_disabled.
Qed.

Lemma reachable_coherent (s : session) : reachable s -> coherent s.
Proof.
  intros (fuel & es & H).
  assert (G : forall s0, coherent s0 -> run fuel es s0 = Some s -> coherent s).
  { clear H. induction es as [|e es IH]; intros s0 H0; cbn.
    - now intros [= <-].
    - destruct (fire fuel e s0) as [s1|] eqn:F; cbn; [|discriminate].
      apply IH. now apply (coherent_fire fuel e s0). }
  apply (G init_session); [|exact H]. unfold coherent; cbn. auto.
Qed.

(** X3: in every state the program can be in, a session that has a board
    also has its buttons, a side to move and a mode, so the guard at the top
    of [make_move] never fires: [make_move] writes the symbol of the side to
    move into the cell. *)
Theorem make_move_always_marks (s : session) (b : Board) :
  reachable s ->
  board s = Some b ->
  exists p,
    current_player s = Some p /\ buttons s <> None /\ mode s <> None /\
    forall row col, board (make_move row col s) = Some (set b row col (Some p)).
Proof.
  intros Hr Hb. pose proof (reachable_coherent s Hr) as H.
  unfold coherent in H. rewrite Hb in H.
  destruct H as (bs & p & m & Hbs & Hp & Hm & _).
  exists p. repeat split; try congruence.
  intros row col. now apply (board_make_move row col s b bs p).
Qed.

Lemma make_move_always_marks_witness :
  exists p,
    current_player after_first_move = Some p /\
    buttons after_first_move <> None /\ mode after_first_move <> None /\
    forall row col,
      board (make_move row col after_first_move) =
      Some (set (set empty_board i0 i0 (Some X)) row col (Some p)).
Proof.
  apply (make_move_always_marks after_first_move (set empty_board i0 i0 (Some X))).
  - exists 0%nat, [EvStartPvP; EvClick i0 i0]. vm_compute. reflexivity.
  - vm_compute. reflexivity.
Defined.

(** X4: in every state the program can be in, an enabled board button lies
    on an empty cell of a game in progress; so a click reaches
    [handle_click] only for such a cell. *)
Theorem enabled_button_is_playable (s : session) (bs : grid bool) (row col : idx) :
  reachable s ->
  buttons s = Some bs ->
  get bs row col = true ->
  exists b, board s = Some b /\ get b row col = None /\ evaluate b = InProgress.
Proof.
  intros Hr Hbs Hen. pose proof (reachable_coherent s Hr) as H.
  unfold coherent in H. destruct (board s) as [b|].
  - destruct H as (bs' & p & m & Hbs' & _ & _ & Hempty & Hover).
    rewrite Hbs in Hbs'. injection Hbs' as <-.
    exists b. split; [reflexivity|]. split; [now apply Hempty|].
    destruct (evaluate b) eqn:Ev; [reflexivity | |];
      rewrite Hover in Hen by discriminate; destruct row, col; discriminate Hen.
  - destruct H as [H _]. congruence.
Qed.

Lemma enabled_button_is_playable_witness :
  exists b,
    board after_first_move = Some b /\ get b i1 i1 = None /\ evaluate b = InProgress.
Proof.
  apply (enabled_button_is_playable after_first_move
           (set (full_grid true) i0 i0 false) i1 i1).
  - exists 0%nat, [EvStartPvP; EvClick i0 i0]. vm_compute. reflexivity.
  - vm_compute. reflexivity.
  - reflexivity.
Defined.



(** ** The turn timer *)

Lemma countdown_running (s : session) :
  timer_id s = true -> 1 < turn_time s ->
  countdown s = set_turn_time s (turn_time s - 1).
Proof.
  destruct s as [m d p b bs t ti n g]; cbn. intros -> Ht.
  unfold countdown; cbn.
  destruct (Z.leb_spec (t - 1) 0); [lia | reflexivity].
Qed.

Lemma countdown_expires (s : session) :
  timer_id s = true -> turn_time s = 1 ->
  countdown s = handle_timeout (stop_timer (set_turn_time s 0)).
Proof.
  destruct s as [m d p b bs t ti n g]; cbn. intros -> ->. reflexivity.
Qed.

Lemma ticks_succ (n : nat) (s : session) : ticks (S n) s = countdown (ticks n s).
Proof. reflexivity. Qed.

Lemma ticks_before_timeout (s : session) (k : nat) :
  (k < 30)%nat ->
  ticks k (start_timer s) = set_turn_time (start_timer s) (30 - Z.of_nat k).
Proof.
  induction k as [|k IH]; intros Hk.
  - now destruct s.
  - cbn [ticks]. rewrite IH by lia.
    rewrite countdown_running.
    + replace (30 - Z.of_nat (S k)) with (30 - Z.of_nat k - 1) by lia.
      now destruct s.
    + now destruct s.
    + destruct s. change (1 < 30 - Z.of_nat k). lia.
Qed.

(** X6: a turn in which no move is made lasts exactly thirty ticks.  After
    [start_timer], each of the first 29 ticks only lowers [turn_time] by
    one; the thirtieth runs [handle_timeout]. *)
Theorem turn_lasts_thirty_ticks (s : session) :
  (forall k, (k < 30)%nat ->
     ticks k (start_timer s) = set_turn_time (start_timer s) (30 - Z.of_nat k)) /\
  ticks 30 (start_timer s) =
    handle_timeout (stop_timer (set_turn_time (start_timer s) 0)).
Proof.
  split; [intros k; apply ticks_before_timeout|].
  rewrite (ticks_succ 29), ticks_before_timeout by lia.
  rewrite countdown_expires; [now destruct s | now destruct s | reflexivity].
Qed.

(** ** Scheduling of the computer *)

(** X7: a click that [handle_click] accepts schedules exactly one computer
    move when the mode is player-versus-computer and the game goes on after
    the mark, and none otherwise (in particular none when the click ended
    the game, and none in player-versus-player mode). *)
Theorem click_schedules_one_computer_move
  (s : session) (m : game_mode) (p : player) (b : Board) (bs : grid bool)
  (row col : idx) :
  computer_to_move s = false ->
  mode s = Some m -> current_player s = Some p ->
  board s = Some b -> buttons s = Some bs ->
  get b row col = None ->
  ai_pending (fst (handle_click row col s)) =
    match m, evaluate (set b row col (Some p)) with
    | PvE, InProgress => S (ai_pending s)
    | _, _ => ai_pending s
    end.
Proof.
  intros Hc Hm Hp Hb Hbs Hg.
  unfold handle_click. rewrite Hb, Hbs, Hg, Hc. cbn [fst].
  destruct (make_move_result row col s b bs p Hb Hbs Hp)
    as (_ & Ep & _ & Em & _ & En).
  set (s1 := make_move row col s) in *.
  assert (Hct : computer_to_move (start_timer s1) =
                match m, evaluate (set b row col (Some p)) with
                | PvE, InProgress => true
                | _, _ => false
                end).
  { unfold computer_to_move; cbn. rewrite Em, Hm, Ep.
    unfold computer_to_move in Hc. rewrite Hm, Hp in Hc.
    destruct m, p, (evaluate _); try reflexivity; discriminate Hc. }
  rewrite Hct.
  destruct m, (evaluate (set b row col (Some p))); cbn; now rewrite En.
Qed.

Lemma click_schedules_one_computer_move_witness :
  ai_pending (fst (handle_click i1 i1 (start_game PvE init_session))) =
    match PvE, evaluate (set empty_board i1 i1 (Some X)) with
    | PvE, InProgress => S (ai_pending (start_game PvE init_session))
    | _, _ => ai_pending (start_game PvE init_session)
    end.
Proof.
  apply (click_schedules_one_computer_move (start_game PvE init_session)
           PvE X empty_board (full_grid true) i1 i1); vm_compute; reflexivity.
Defined.

(** ** The game after its end, and callbacks that outlive their game *)

Lemma start_game_pve (s : session) :
  start_game PvE s =
  Session (Some PvE) (ai_difficulty s) (Some X) (Some empty_board)
          (Some (full_grid true)) 30 true (ai_pending s) (game_count s).
Proof.
  destruct s as [m d p b bs t ti n g].
  unfold start_game, clear_window; cbn. now destruct bs.
Qed.


(** During the computer's turn a timeout changes nothing. *)
Lemma handle_timeout_computer_turn (s : session) :
  computer_to_move s = true -> handle_timeout s = s.
Proof.
  intros Hc. unfold handle_timeout.
  destruct (board s); [|reflexivity].
  destruct (current_player s); [|reflexivity]. now rewrite Hc.
Qed.

Lemma handle_click_computer_turn (row col : idx) (s : session) :
  computer_to_move s = true -> handle_click row col s = (s, ReturnsNone).
Proof.
  intros Hc. unfold handle_click.
  destruct (board s); [|reflexivity].
  destruct (buttons s); [|reflexivity].
  destruct (get _ _ _); [reflexivity|]. now rewrite Hc.
Qed.



Lemma first_mark_in_progress (m : move) (p : player) :
  evaluate (set empty_board (fst m) (snd m) (Some p)) = InProgress.
Proof. destruct m as [[] []], p; reflexivity. Qed.

(** X9: a scheduled computer move outlives a reset.  In
    player-versus-computer mode, [reset_game] starts a new game but leaves
    the scheduled move pending; when it runs it places the first mark of
    the new game, an X, and passes the turn to O.  During O's turn clicks
    and timeouts change nothing, so only another scheduled computer move
    can continue the game. *)
Theorem pending_computer_move_survives_reset
  (s : session) (n fuel : nat) (r : draws) :
  mode s = Some PvE ->
  ai_pending s = S n ->
  (9 <= fuel)%nat ->
  exists m s',
    fire fuel (EvComputerMove r) (reset_game s) = Some s' /\
    board s' = Some (apply_move empty_board m X) /\
    current_player s' = Some O /\
    ai_pending s' = n /\
    handle_timeout s' = s' /\
    forall row col, handle_click row col s' = (s', ReturnsNone).
Proof.
  intros Hm Hn Hf. unfold reset_game, start_game_with_ai. rewrite Hm.
  rewrite start_game_pve. cbn [ai_pending ai_difficulty game_count set_ai_difficulty].
  rewrite Hn. cbn [fire ai_pending set_ai_pending].
  set (u := set_ai_pending _ n). cbn in u.
  assert (Hne : legal_moves empty_board <> []) by (vm_compute; discriminate).
  destruct (computer_move_plays fuel r u empty_board eq_refl Hne) as (m & Hin & E).
  { replace (count_empty empty_board) with 9%nat by reflexivity. exact Hf. }
  destruct (make_move_result (fst m) (snd m) u empty_board (full_grid true) X
              eq_refl eq_refl eq_refl) as (Eb & Ep & _ & Em & _ & En).
  rewrite first_mark_in_progress in Ep.
  set (v := make_move (fst m) (snd m) u) in *.
  assert (Hc : computer_to_move (start_timer v) = true).
  { change (computer_to_move (start_timer v)) with (computer_to_move v).
    unfold computer_to_move. now rewrite Em, Ep. }
  exists m, (start_timer v). split; [exact E|].
  split; [exact Eb|]. split; [exact Ep|]. split; [exact En|].
  split; [now apply handle_timeout_computer_turn|].
  intros row col. now apply handle_click_computer_turn.
Qed.

Lemma pending_computer_move_survives_reset_witness :
  exists m s',
    fire 10 (EvComputerMove (Draws false 0)) (reset_game threat_session) = Some s' /\
    board s' = Some (apply_move empty_board m X) /\
    current_player s' = Some O /\
    ai_pending s' = 0%nat /\
    handle_timeout s' = s' /\
    forall row col, handle_click row col s' = (s', ReturnsNone).
Proof.
  apply (pending_computer_move_survives_reset threat_session 0 10 (Draws false 0)).
  - reflexivity.
  - reflexivity.
  - lia.
Defined.

(** ** The computer at difficulty ['hard'] *)

Lemma fold_min_spec (l : list score) (a : score) :
  let r := fold_left py_min l a in
  score_le r a /\ (forall y, In y l -> score_le r y) /\ (r = a \/ In r l).
Proof.
  revert a; induction l as [|x l IH]; intros a; cbn.
  - repeat split; [ScoreTac.order | intros y [] | now left].
  - destruct (IH (py_min a x)) as (H1 & H2 & H3).
    set (r := fold_left py_min l (py_min a x)) in *. repeat split.
    + revert H1; clear; intros; score_solve.
    + intros y [<- | Hy]; [revert H1; clear; intros; score_solve | auto].
    + destruct H3 as [H3 | H3]; [|now right; right].
      rewrite H3. unfold py_min. destruct (score_ltb x a); [right; now left | now left].
Qed.

(** The value of a decided position does not depend on the side to move. *)
Lemma plain_minimax_decided (b : Board) (m1 m2 : bool) :
  evaluate b <> InProgress -> plain_minimax b m1 = plain_minimax b m2.
Proof.
  intros H. rewrite !plain_minimax_eq.
  destruct (evaluate b) as [| [|] |]; try reflexivity. now elim H.
Qed.

(** With X to move, no move of X leads to a value below that of the
    position. *)
Lemma plain_minimax_x_move (b : Board) (c : move) :
  evaluate b = InProgress -> In c (legal_moves b) ->
  score_le (plain_minimax b false) (plain_minimax (apply_move b c X) true).
Proof.
  intros Ev Hc. rewrite (plain_minimax_eq b false), Ev.
  destruct (fold_min_spec
              (map (fun m => plain_minimax (apply_move b m X) true) (legal_moves b))
              PosInf) as (_ & H & _).
  apply H. now apply (in_map (fun m => plain_minimax (apply_move b m X) true)).
Qed.

(** The move [get_best_move] settles on keeps the value of the position. *)
Lemma chosen_move_optimal (b : Board) :
  evaluate b = InProgress ->
  In (chosen_move b) (legal_moves b) /\
  move_value b (chosen_move b) = plain_minimax b true.
Proof.
  intros Ev.
  assert (Hne : legal_moves b <> []).
  { apply evaluate_in_progress in Ev as [_ Ev]. now apply not_full_has_move. }
  pose proof (chosen_move_legal b Hne) as Hm. split; [exact Hm|].
  assert (Hle : forall c, In c (legal_moves b) ->
                          score_le (move_value b c) (move_value b (chosen_move b))).
  { unfold chosen_move.
    destruct (best_fold_spec b cells (Best b NegInf (i0, i0)) eq_refl)
      as [[_ Hl] | (l1 & l2 & E & Hg & Hs & _ & H1 & H2)]; cbn [best_score] in *.
    - intros c Hc. apply in_legal_moves in Hc.
      specialize (Hl c (in_cells c) Hc).
      destruct (move_value_fin b c) as [z Hz]. rewrite Hz in Hl. discriminate Hl.
    - intros c Hc. apply in_legal_moves in Hc. rewrite Hs in H1, H2.
      pose proof (in_cells c) as Hin. rewrite E in Hin.
      apply in_app_or in Hin as [Hin | [<- | Hin]].
      + specialize (H1 c Hin Hc). ScoreTac.order.
      + ScoreTac.order.
      + now apply H2. }
  rewrite plain_minimax_eq, Ev. fold (move_value b).
  destruct (fold_max_spec (map (move_value b) (legal_moves b)) NegInf)
    as (_ & Hub & Hin).
  set (v := fold_left py_max (map (move_value b) (legal_moves b)) NegInf) in *.
  assert (G1 : score_le (move_value b (chosen_move b)) v) by (apply Hub; now apply in_map).
  assert (G2 : score_le v (move_value b (chosen_move b))).
  { destruct Hin as [-> | Hin]; [apply score_le_NegInf|].
    apply in_map_iff in Hin as (c & <- & Hc). now apply Hle. }
  ScoreTac.order.
Qed.

(** With best play of both sides, the first player does not win. *)
Lemma empty_board_value : plain_minimax empty_board false = Fin 0.
Proof. vm_compute. reflexivity. Qed.

Lemma safe_not_lost (b : Board) (m : bool) :
  score_le (Fin 0) (plain_minimax b m) -> evaluate b <> Win X.
Proof.
  intros H Ev. rewrite plain_minimax_eq, Ev in H. discriminate H.
Qed.

Lemma safe_same (s s' : session) :
  mode s' = mode s -> ai_difficulty s' = ai_difficulty s ->
  board s' = board s -> current_player s' = current_player s ->
  safe_for_computer s -> safe_for_computer s'.
Proof. unfold safe_for_computer. now intros -> -> -> ->. Qed.

(** A mark that keeps the value for its side at least at 0 keeps the
    session safe. *)
Lemma safe_make_move (row col : idx) (s : session) (b : Board) (p : player) :
  safe_for_computer s ->
  board s = Some b -> current_player s = Some p ->
  score_le (Fin 0) (plain_minimax (set b row col (Some p)) (o_to_move (other p))) ->
  safe_for_computer (make_move row col s).
Proof.
  intros Hs Hb Hp Hv.
  destruct (buttons s) as [bs|] eqn:Hbs; [|now rewrite make_move_skips by auto].
  destruct Hs as (Hm & Hd & _).
  destruct (make_move_result row col s b bs p Hb Hbs Hp)
    as (Eb & Ep & _ & Em & Ed & _).
  split; [congruence|]. split; [congruence|].
  intros b' Hb'. rewrite Eb in Hb'. injection Hb' as <-.
  eexists. split; [exact Ep|].
  destruct (evaluate (set b row col (Some p))) eqn:Ev; [exact Hv | |];
    rewrite (plain_minimax_decided _ _ (o_to_move (other p))); try exact Hv;
    rewrite Ev; discriminate.
Qed.

(** At difficulty ['hard'] the computer plays the move of [get_best_move]. *)
Lemma computer_move_hard (fuel : nat) (r : draws) (s : session) (b : Board) :
  ai_difficulty s = Hard -> board s = Some b ->
  legal_moves b <> [] -> (count_empty b <= fuel)%nat ->
  computer_move fuel r s =
  Some (start_timer (make_move (fst (chosen_move b)) (snd (chosen_move b)) s)).
Proof.
  intros Hd Hb Hne Hf. unfold computer_move. rewrite Hb, Hd.
  rewrite (get_best_move_scan fuel s b Hb Hf).
  destruct (legal_moves b); [now elim Hne | reflexivity].
Qed.

(** Restarting the timer touches neither the board nor the turn. *)
Lemma safe_start_timer (s : session) :
  safe_for_computer s -> safe_for_computer (start_timer s).
Proof. apply safe_same; now destruct s. Qed.

(** The value of a move of O, written out. *)
Lemma move_value_eq (b : Board) (m : move) :
  move_value b m =
  plain_minimax (set b (fst m) (snd m) (Some O)) (o_to_move (other O)).
Proof. reflexivity. Qed.

Lemma some_injective {A : Type} (x y : A) : Some x = Some y -> x = y.
Proof. now intros [= ->]. Qed.

Lemma hard_game_safe (s : session) : hard_game s -> safe_for_computer s.
Proof.
  intros Hg.
  induction Hg as [s0 | s b row col Hg IH Hb Ev | s s' b fuel r Hg IH Hb Ev Hc Hf Hcm].
  - unfold start_game_with_ai. rewrite start_game_pve. cbn.
    split; [reflexivity|]. split; [reflexivity|].
    intros b [= <-]. exists X. split; [reflexivity|].
    cbn [o_to_move]. now rewrite empty_board_value.
  - unfold handle_click. rewrite Hb.
    destruct (buttons s) as [bs|]; [|exact IH].
    destruct (get b row col) eqn:G; [exact IH|].
    destruct (computer_to_move s) eqn:Hc; [exact IH|]. cbn [fst].
    apply (safe_same (make_move row col s));
      try (match goal with
           | |- context [if ?c then _ else _] => destruct c
           end; reflexivity).
    pose proof IH as (Hm & Hd & Hv).
    destruct (Hv b Hb) as (p & Hp & Hval).
    assert (p = X) as ->.
    { unfold computer_to_move in Hc. rewrite Hm, Hp in Hc. now destruct p. }
    apply (safe_make_move row col s b X IH Hb Hp).
    cbn [other o_to_move] in *.
    assert (Hin : In (row, col) (legal_moves b)) by now apply in_legal_moves.
    pose proof (plain_minimax_x_move b (row, col) Ev Hin) as Hx.
    unfold apply_move in Hx; cbn [fst snd] in Hx. ScoreTac.order.
  - pose proof IH as (Hm & Hd & Hv).
    destruct (Hv b Hb) as (p & Hp & Hval).
    assert (p = O) as ->.
    { unfold computer_to_move in Hc. rewrite Hm, Hp in Hc. now destruct p. }
    destruct (chosen_move_optimal b Ev) as [Hin Hopt].
    assert (Hne : legal_moves b <> []) by (intros E; rewrite E in Hin; now elim Hin).
    rewrite (computer_move_hard fuel r s b Hd Hb Hne Hf) in Hcm.
    apply some_injective in Hcm. subst s'.
    apply safe_start_timer.
    apply (safe_make_move _ _ s b O IH Hb Hp).
    rewrite <- move_value_eq, Hopt. exact Hval.
Qed.

(** X10: at difficulty ['hard'] the computer never loses.  In a game
    against the computer in which no turn times out, whatever the human
    plays, no position is ever evaluated as a win of X. *)
Theorem hard_computer_never_loses (s : session) (b : Board) :
  hard_game s ->
  board s = Some b ->
  evaluate b <> Win X.
Proof.
  intros Hg Hb.
  destruct (hard_game_safe s Hg) as (_ & _ & Hv).
  destruct (Hv b Hb) as (p & _ & Hval).
  now apply (safe_not_lost b (o_to_move p)).
Qed.

Lemma hard_computer_never_loses_witness :
  evaluate (set empty_board i1 i1 (Some X)) <> Win X.
Proof.
  apply (hard_computer_never_loses
           (fst (handle_click i1 i1 (start_game_with_ai Hard init_session)))
           (set empty_board i1 i1 (Some X))).
  - apply (hard_click (start_game_with_ai Hard init_session) empty_board i1 i1).
    + apply hard_start.
    + reflexivity.
    + reflexivity.
  - vm_compute. reflexivity.
Defined.

(** X11: [get_best_move] does not miss a win.  When some move of O
    completes a line of O on a board in progress, the move returned has
    value [1]: it wins against every defence (it need not be the move that
    wins at once). *)
Theorem get_best_move_takes_a_win
  (fuel : nat) (s : session) (b : Board) (c : move) :
  board s = Some b ->
  evaluate b = InProgress ->
  In c (legal_moves b) ->
  evaluate (apply_move b c O) = Win O ->
  (count_empty b <= fuel)%nat ->
  exists m,
    get_best_move fuel s = Some (m, s) /\
    In m (legal_moves b) /\
    move_value b m = Fin 1.
Proof.
  intros Hb Ev Hc Hw Hf. exists (chosen_move b).
  split; [now apply get_best_move_scan|].
  destruct (chosen_move_optimal b Ev) as [Hin Hopt]. split; [exact Hin|].
  assert (Hc1 : move_value b c = Fin 1).
  { unfold move_value. now rewrite plain_minimax_eq, Hw. }
  assert (Hle : score_le (move_value b c) (plain_minimax b true)).
  { rewrite (plain_minimax_eq b true), Ev. fold (move_value b).
    destruct (fold_max_spec (map (move_value b) (legal_moves b)) NegInf) as (_ & H & _).
    apply H. now apply in_map. }
  rewrite Hopt.
  destruct (minimax_search_ok (S (count_empty b)) b (Nat.lt_succ_diag_r _) 0 true NegInf PosInf)
    as (r & E & Hbd).
  destruct (minimax_partial _ _ _ _ _ _ _ _ E) as [_ (z & Hz & Hrange)].
  assert (Hr : r = plain_minimax b true)
    by (apply bounded_full; [apply plain_minimax_fin | now apply Hbd]).
  rewrite Hr in Hz. rewrite Hz in Hle |- *. rewrite Hc1 in Hle.
  unfold score_le in Hle; cbn in Hle. apply Z.ltb_ge in Hle.
  f_equal. lia.
Qed.

Lemma get_best_move_takes_a_win_witness :
  exists m,
    get_best_move 10 (set_board threat_session (Some (set drawn_board i2 i1 None))) =
      Some (m, set_board threat_session (Some (set drawn_board i2 i1 None))) /\
    In m (legal_moves (set drawn_board i2 i1 None)) /\
    move_value (set drawn_board i2 i1 None) m = Fin 1.
Proof.
  apply (get_best_move_takes_a_win 10
           (set_board threat_session (Some (set drawn_board i2 i1 None)))
           (set drawn_board i2 i1 None) (i2, i1)).
  - reflexivity.
  - vm_compute. reflexivity.
  - vm_compute. tauto.
  - vm_compute. reflexivity.
  - vm_compute. lia.
Defined.
